(** * Parameter estimation of [smd_handson_fitting.ipynb]

    A shallow embedding of the numerical core of the notebook: the
    linear least-squares cells ([linear_combination], [design_matrix],
    [solve_linear_least_squares], [chisquare_over_ndf],
    [linear_least_squares], [cov_to_corr]), the models [func] and
    [theory] of the numerical fits, the unbinned likelihood (the cut on
    [measured], [pdf], [neg_log_likelihood]) and the histogram edges
    and the model [cdf] of the binned fit.

    Arithmetic on finite values is exact: a NumPy array holds elements
    of a real field (any [realFieldType] for the linear algebra, the
    real numbers of the Standard Library where [exp], [log] and
    integrals are needed). What NumPy adds to the reals is modelled
    explicitly: the shape of an array is data (checked by every
    operation that checks it in NumPy), a failing operation raises, and
    a division, a square root or a logarithm may produce [inf] or
    [nan], which later operations carry on. Where rounding decides the
    outcome, the routine concerned is left open: the inversion in
    [solve_linear_least_squares_with], the library functions of the
    likelihood in [library]. *)

From Stdlib Require Import Reals Lra.

(** Ring and field normalisation and arithmetic on the real numbers of
    the Standard Library, named before MathComp's tactics of the same
    names are loaded. *)
Ltac real_ring := ring.
Ltac real_field := field.
Ltac real_lra := lra.
Ltac real_nra := nra.

From HB Require Import structures.
From mathcomp Require Import boot order algebra algC.

Set Implicit Arguments.
Unset Strict Implicit.
Unset Printing Implicit Defensive.

Import GRing.Theory Num.Theory Order.Theory.

(** ** Exceptions *)

(** The exceptions the modelled cells can raise: [ValueError] is what
    NumPy raises on a shape mismatch ([@], [-], [column_stack]),
    [LinAlgError] is [numpy.linalg.LinAlgError], raised by
    [np.linalg.inv] on a matrix that is not square or is singular. *)
Inductive exception : Type :=
| ValueError
| LinAlgError.

Inductive result (T : Type) : Type :=
| Ok (x : T)
| Raise (e : exception).

Arguments Ok {T} x.
Arguments Raise {T} e.

Definition bind {T U : Type} (r : result T) (k : T -> result U) : result U :=
  match r with
  | Ok x => k x
  | Raise e => Raise e
  end.

Notation "x <- r ;; k" := (bind r (fun x => k))
  (at level 61, r at next level, right associativity).

Definition is_ok {T : Type} (r : result T) : bool :=
  if r is Ok _ then true else false.

(** ** Floating-point values

    A [np.float64] over the carrier [T]: finite, or one of the special
    values [inf], [-inf], [nan]. *)
Inductive float64 (T : Type) : Type :=
| Finite (r : T)
| PosInf
| NegInf
| NaN.

Arguments Finite {T} r.
Arguments PosInf {T}.
Arguments NegInf {T}.
Arguments NaN {T}.

Definition is_finite {T : Type} (v : float64 T) : bool :=
  if v is Finite _ then true else false.

Definition is_nan {T : Type} (v : float64 T) : bool :=
  if v is NaN then true else false.

(** ** NumPy arrays over a real field *)

Section NumPy.

Local Open Scope ring_scope.

Variable F : realFieldType.

(** A one-dimensional array of shape [(len,)]. *)
Record array1 : Type := Array1 { len : nat; vec : 'cV[F]_len }.

(** A two-dimensional array of shape [(nrows, ncols)]. *)
Record array2 : Type :=
  Array2 { nrows : nat; ncols : nat; mx : 'M[F]_(nrows, ncols) }.

(** [v[i]], with 0 where the index is out of range (only used in
    range). *)
Definition item (v : array1) (i : nat) : F :=
  if insub i is Some j then vec v j 0 else 0.

(** [A.T] *)
Definition transpose (A : array2) : array2 := Array2 (mx A)^T.

(** [A @ B] for two-dimensional operands. *)
Definition matmul22 (A B : array2) : result array2 :=
  if ncols A =P nrows B is ReflectT e
  then Ok (Array2 (mx A *m castmx (esym e, erefl) (mx B)))
  else Raise ValueError.

(** [A @ v]: the one-dimensional right operand is a column, the result
    is one-dimensional. *)
Definition matmul21 (A : array2) (v : array1) : result array1 :=
  if ncols A =P len v is ReflectT e
  then Ok (Array1 (mx A *m castmx (esym e, erefl) (vec v)))
  else Raise ValueError.

(** [v @ A]: the one-dimensional left operand is a row, the result is
    one-dimensional. *)
Definition matmul12 (v : array1) (A : array2) : result array1 :=
  if len v =P nrows A is ReflectT e
  then Ok (Array1 ((castmx (e, erefl) (vec v))^T *m mx A)^T)
  else Raise ValueError.

(** [u @ v]: the inner product, a scalar. *)
Definition matmul11 (u v : array1) : result F :=
  if len u =P len v is ReflectT e
  then Ok (((castmx (e, erefl) (vec u))^T *m vec v) 0 0)
  else Raise ValueError.

(** [u - v] with NumPy's broadcasting of a one-element operand. *)
Definition subtract (u v : array1) : result array1 :=
  if len u =P len v is ReflectT e
  then Ok (Array1 (castmx (e, erefl) (vec u) - vec v))
  else if len v == 1%N
  then Ok (Array1 (\col_(i < len u) (vec u i 0 - item v 0)))
  else if len u == 1%N
  then Ok (Array1 (\col_(i < len v) (item u 0 - vec v i 0)))
  else Raise ValueError.

(** [np.eye(n)] *)
Definition eye (n : nat) : array2 := Array2 (1%:M : 'M[F]_n).

(** [np.linalg.inv(A)] *)
Definition inv (A : array2) : result array2 :=
  if nrows A =P ncols A is ReflectT e
  then let M := castmx (erefl, esym e) (mx A) in
       if M \in unitmx then Ok (Array2 (invmx M)) else Raise LinAlgError
  else Raise LinAlgError.

(** [np.column_stack(cols)] for one-dimensional [cols]: they become the
    columns of the result. *)
Definition column_stack (cols : seq array1) : result array2 :=
  match cols with
  | [::] => Raise ValueError
  | c :: _ =>
      if all (fun c' => len c' == len c) cols
      then Ok (Array2 (\matrix_(i < len c, j < size cols)
                         item (nth c cols j) i))
      else Raise ValueError
  end.

(** [x / d] for a [np.float64] [x] and a Python [int] [d]: a zero
    divisor gives [inf], [-inf] or [nan] (with a warning), it does not
    raise. *)
Definition np_truediv (x : F) (d : int) : float64 F :=
  if d == 0 then
    if x == 0 then NaN else if 0 < x then PosInf else NegInf
  else Finite (x / d%:~R).

(** ** The linear least-squares cells *)

(** [def design_matrix(funcs, x)]: each basis function is applied to
    the whole array [x]. *)
Definition design_matrix (funcs : seq (array1 -> array1)) (x : array1)
  : result array2 :=
  column_stack [seq f x | f <- funcs].

(** [def solve_linear_least_squares(A, W, y)] *)
Definition solve_linear_least_squares (A W : array2) (y : array1)
  : result (array1 * array2) :=
  AtW <- matmul22 (transpose A) W ;;
  AtWA <- matmul22 AtW A ;;
  cov <- inv AtWA ;;
  covAt <- matmul22 cov (transpose A) ;;
  covAtW <- matmul22 covAt W ;;
  parameters <- matmul21 covAtW y ;;
  Ok (parameters, cov).

(** The same cell with the inversion left open. [np.linalg.inv]
    factorises its argument in floating point, so which matrices it
    rejects is not decided by exact arithmetic: [linalg_inv] stands for
    any routine that returns a matrix or raises. *)
Definition solve_linear_least_squares_with
    (linalg_inv : array2 -> result array2) (A W : array2) (y : array1)
  : result (array1 * array2) :=
  AtW <- matmul22 (transpose A) W ;;
  AtWA <- matmul22 AtW A ;;
  cov <- linalg_inv AtWA ;;
  covAt <- matmul22 cov (transpose A) ;;
  covAtW <- matmul22 covAt W ;;
  parameters <- matmul21 covAtW y ;;
  Ok (parameters, cov).

(** The module-level variables a function body reads. The only one is
    [W], assigned in the cell [W = np.linalg.inv(cov_y)]. *)
Record globals : Type := Globals { W : array2 }.

(** [def chisquare_over_ndf(y, A, parameters)]: the body names [W],
    which is neither a parameter nor a local, so it is the global. *)
Definition chisquare_over_ndf (g : globals) (y : array1) (A : array2)
    (parameters : array1) : result (float64 F) :=
  Ap <- matmul21 A parameters ;;
  residuals <- subtract y Ap ;;
  rW <- matmul12 residuals (W g) ;;
  sum_residuals <- matmul11 rW residuals ;;
  let ndf := ((len y)%:Z - (len parameters)%:Z)%R in
  Ok (np_truediv sum_residuals ndf).

(** [def linear_least_squares(x, y, funcs, cov_y=None)] *)
Definition linear_least_squares (g : globals) (x y : array1)
    (funcs : seq (array1 -> array1)) (cov_y : option array2)
  : result (array1 * array2 * float64 F) :=
  A <- design_matrix funcs x ;;
  W <- (if cov_y is Some c then inv c else Ok (eye (len y))) ;;
  pc <- solve_linear_least_squares A W y ;;
  chisquare_ndf <- chisquare_over_ndf g y A pc.1 ;;
  Ok (pc.1, pc.2, chisquare_ndf).

(** The weighted sum of squared residuals
    [(y - A theta)^T W (y - A theta)]. *)
Definition wssr (N P : nat) (A : 'M[F]_(N, P)) (Wm : 'M[F]_N)
    (y : 'cV[F]_N) (theta : 'cV[F]_P) : F :=
  ((y - A *m theta)^T *m Wm *m (y - A *m theta)) 0 0.

(** Symmetric positive-definite weight matrices. *)
Definition symmetric (N : nat) (Wm : 'M[F]_N) : Prop := Wm^T = Wm.

Definition positive_definite (N : nat) (Wm : 'M[F]_N) : Prop :=
  forall v : 'cV[F]_N, v != 0 -> 0 < (v^T *m Wm *m v) 0 0.

(** A NumPy universal function: a scalar function applied to each
    element ([np.sin], [np.cos]). *)
Definition ufunc (g : F -> F) (x : array1) : array1 :=
  Array1 (map_mx g (vec x)).

(** [np.ones_like] *)
Definition ones_like (x : array1) : array1 :=
  Array1 (const_mx 1 : 'cV[F]_(len x)).

(** [np.ones(n)], whatever the argument. *)
Definition ones (n : nat) (x : array1) : array1 :=
  Array1 (const_mx 1 : 'cV[F]_n).

(** Sample data: [x = [0, 1]], [y = [1, -1]]. *)
Definition x01 : array1 := Array1 (\col_(i < 2) (i : nat)%:R).
Definition y1m1_vec : 'cV[F]_2 := \col_(i < 2) (-1) ^+ i.
Definition y1m1 : array1 := Array1 y1m1_vec.

(** The design matrix of the constant model on two samples. *)
Definition ones_column : 'M[F]_(2, 1) := const_mx 1.

End NumPy.

(** ** Densities over the real numbers *)

Section Densities.

Local Open Scope R_scope.

(** The detector range, [E_MIN = 75] and [E_MAX = 175]. *)
Definition E_MIN : R := 75.
Definition E_MAX : R := 175.

(** [scipy.stats.norm.pdf(x, loc, scale)] *)
Definition norm_pdf (x loc scale : R) : R :=
  exp (- ((x - loc) / scale) ^ 2 / 2) / sqrt (2 * PI) / scale.

(** [scipy.stats.expon.pdf(x, scale=scale)]: zero below the support. *)
Definition expon_pdf (x scale : R) : R :=
  if Rle_dec 0 (x / scale) then exp (- (x / scale)) / scale else 0.

(** [scipy.stats.expon.cdf(x, scale=scale)] *)
Definition expon_cdf (x scale : R) : R :=
  if Rle_dec 0 (x / scale) then 1 - exp (- (x / scale)) else 0.

(** [scipy.stats.uniform.cdf(x, loc, scale)]: the uniform distribution
    on [[loc, loc + scale]]. *)
Definition uniform_cdf (x loc scale : R) : R :=
  let z := (x - loc) / scale in
  if Rlt_dec z 0 then 0 else if Rlt_dec 1 z then 1 else z.

(** [expon_norm = np.exp(-E_MIN / tau) - np.exp(-E_MAX / tau)] *)
Definition expon_norm (tau : R) : R :=
  exp (- E_MIN / tau) - exp (- E_MAX / tau).

(** [def pdf(x, mean, std, tau, p)], at one sample [x]. *)
Definition pdf (x mean std tau p : R) : R :=
  let mass_peak := p * norm_pdf x mean std in
  let background := (1 - p) / expon_norm tau * expon_pdf x tau in
  mass_peak + background.


(** [np.log]: [-inf] at 0 and [nan] below. *)
Definition np_log (x : R) : float64 R :=
  if Rlt_dec 0 x then Finite (ln x)
  else if Req_dec_T x 0 then NegInf else NaN.

Definition fadd (a b : float64 R) : float64 R :=
  match a, b with
  | Finite x, Finite y => Finite (x + y)
  | NaN, _ | _, NaN => NaN
  | PosInf, NegInf | NegInf, PosInf => NaN
  | PosInf, _ | _, PosInf => PosInf
  | NegInf, _ | _, NegInf => NegInf
  end.

Definition fneg (a : float64 R) : float64 R :=
  match a with
  | Finite x => Finite (- x)
  | PosInf => NegInf
  | NegInf => PosInf
  | NaN => NaN
  end.


(** The parameter vector [[mean, std, tau, p]]. *)
Definition parameters : Type := (R * R * R * R)%type.

(** *** The likelihood in floating point *)

(** [a - b] *)
Definition fsub (a b : float64 R) : float64 R := fadd a (fneg b).

(** [a * b]; zero times an infinity is [nan]. *)
Definition fmul (a b : float64 R) : float64 R :=
  match a, b with
  | Finite u, Finite v => Finite (u * v)
  | NaN, _ | _, NaN => NaN
  | Finite u, PosInf | PosInf, Finite u =>
      if Rlt_dec 0 u then PosInf else if Rlt_dec u 0 then NegInf else NaN
  | Finite u, NegInf | NegInf, Finite u =>
      if Rlt_dec 0 u then NegInf else if Rlt_dec u 0 then PosInf else NaN
  | PosInf, PosInf | NegInf, NegInf => PosInf
  | PosInf, NegInf | NegInf, PosInf => NegInf
  end.

(** [a / b] for [np.float64] operands: a division by zero is an
    infinity, or [nan] for [0 / 0], and raises nothing. Zero has no
    sign here. *)
Definition fdiv (a b : float64 R) : float64 R :=
  match a, b with
  | NaN, _ | _, NaN => NaN
  | Finite u, Finite v =>
      if Req_dec_T v 0
      then (if Rlt_dec 0 u then PosInf
            else if Rlt_dec u 0 then NegInf else NaN)
      else Finite (u / v)
  | Finite _, PosInf | Finite _, NegInf => Finite 0
  | PosInf, Finite v => if Rlt_dec v 0 then NegInf else PosInf
  | NegInf, Finite v => if Rlt_dec v 0 then PosInf else NegInf
  | PosInf, PosInf | PosInf, NegInf | NegInf, PosInf | NegInf, NegInf => NaN
  end.


(** The library functions the density calls, as they evaluate in
    floating point: [np.exp], [scipy.stats.norm.pdf(x, loc, scale)] and
    [scipy.stats.expon.pdf(x, scale=scale)]. How they round, overflow
    and underflow is theirs; the cells below are modelled for every
    such evaluation. *)
Record library : Type := Library {
  np_exp : float64 R -> float64 R;
  stats_norm_pdf : R -> R -> R -> float64 R;
  stats_expon_pdf : R -> R -> float64 R
}.

(** The evaluation in exact arithmetic. scipy returns [nan] for a
    scale that is not positive. *)
Definition exact : library :=
  {| np_exp := fun a =>
       match a with
       | Finite u => Finite (exp u)
       | PosInf => PosInf
       | NegInf => Finite 0
       | NaN => NaN
       end;
     stats_norm_pdf := fun u loc scale =>
       if Rlt_dec 0 scale then Finite (norm_pdf u loc scale) else NaN;
     stats_expon_pdf := fun u scale =>
       if Rlt_dec 0 scale then Finite (expon_pdf u scale) else NaN |}.

(** [def pdf(x, mean, std, tau, p)] as the code evaluates it at one
    sample [x], with the library [L]: a floating-point value, which may
    be an infinity or [nan]. *)
Definition pdf64 (L : library) (x mean std tau p : R) : float64 R :=
  let mass_peak := fmul (Finite p) (stats_norm_pdf L x mean std) in
  let expon_norm :=
    fsub (np_exp L (fdiv (Finite (- E_MIN)) (Finite tau)))
         (np_exp L (fdiv (Finite (- E_MAX)) (Finite tau))) in
  let background :=
    fmul (fdiv (Finite (1 - p)) expon_norm) (stats_expon_pdf L x tau) in
  fadd mass_peak background.




(** The bin edges of the muon histogram with [n] channels:
    [t = np.arange(len(N) + 1) / 21.48] and then [t = t[5:]]. *)
Definition edges (n : nat) : seq R :=
  drop 5 [seq INR k / 21.48 | k <- iota 0 n.+1].

(** [T_MIN, T_MAX = t[0], t[-1]] *)
Definition T_MIN (n : nat) : R := head 0 (edges n).
Definition T_MAX (n : nat) : R := last 0 (edges n).

(** [def cdf(x, tau, p)] of the binned fit, for a histogram of [n]
    channels. *)
Definition cdf (n : nat) (x tau p : R) : R :=
  let cdf_min := expon_cdf (T_MIN n) tau in
  let cdf_max := expon_cdf (T_MAX n) tau in
  let norm := 1 / (cdf_max - cdf_min) in
  let signal := p * expon_cdf x tau * norm in
  let background := (1 - p) * uniform_cdf x (T_MIN n) (T_MAX n) in
  signal + background.

End Densities.

(** ** Further cells of the linear fit *)

Section LinearCombination.

Local Open Scope ring_scope.

Variable F : realFieldType.

(** What [np.sum(..., axis=0)] returns for a list of one-dimensional
    arrays: a scalar for the empty list, a one-dimensional array
    otherwise. *)
Inductive scalar_or_array : Type :=
| Scalar (r : F)
| Vector (v : array1 F).

(** The elements of a one-dimensional array, in order: what iterating
    over it yields. *)
Definition tolist (v : array1 F) : seq F :=
  [seq vec v i 0 | i <- enum 'I_(len v)].

(** [p * a] for a number [p] and an array [a]. *)
Definition scale (p : F) (a : array1 F) : array1 F :=
  Array1 (p *: vec a).

(** [np.sum(terms, axis=0)] for a list of one-dimensional arrays: the
    list becomes a two-dimensional array, which needs equal lengths,
    and its rows are added. The empty list sums to the scalar 0. *)
Definition np_sum_axis0 (terms : seq (array1 F)) : result scalar_or_array :=
  match terms with
  | [::] => Ok (Scalar 0)
  | c :: _ =>
      if all (fun c' => len c' == len c) terms
      then Ok (Vector (Array1 (\col_(i < len c) \sum_(t <- terms) item t i)))
      else Raise ValueError
  end.

(** [def linear_combination(x, funcs, parameters)]: [zip(...,
    strict=True)] raises [ValueError] when the two sequences differ in
    length. *)
Definition linear_combination (x : array1 F)
    (funcs : seq (array1 F -> array1 F)) (parameters : array1 F)
  : result scalar_or_array :=
  if len parameters == size funcs
  then np_sum_axis0
         [seq scale pf.1 (pf.2 x) | pf <- zip (tolist parameters) funcs]
  else Raise ValueError.

End LinearCombination.

(** ** The model of the example *)

Section SineModel.

Local Open Scope ring_scope.

Variable F : realFieldType.

(** The scalar functions behind [np.sin] and [np.cos]. *)
Variables np_sin np_cos : F -> F.

(** [funcs = [np.ones_like, np.sin, np.cos]] *)
Definition funcs : seq (array1 F -> array1 F) :=
  [:: @ones_like F; ufunc np_sin; ufunc np_cos].

(** [def func(x, p1, p2, p3)], the model passed to [curve_fit]: the
    numbers [p1], [p2], [p3] are broadcast over the array [x]. *)
Definition func (x : array1 F) (p1 p2 p3 : F) : array1 F :=
  Array1 (\col_(i < len x)
            (p1 + p2 * np_sin (vec x i 0) + p3 * np_cos (vec x i 0))).

(** [np.array([p1, p2, p3])] *)
Definition array3 (p1 p2 p3 : F) : array1 F :=
  Array1 (\col_(k < 3) nth 0 [:: p1; p2; p3] k).

End SineModel.

(** ** Diagonals and the weights of the example *)

Section Diagonals.

Local Open Scope ring_scope.

Variable F : realFieldType.

(** [A[i, j]], with 0 where an index is out of range (only used in
    range). *)
Definition entry (A : array2 F) (i j : nat) : F :=
  if insub i is Some i' then
    if insub j is Some j' then mx A i' j' else 0
  else 0.

(** [np.diag(A)] for a two-dimensional [A]: its main diagonal. *)
Definition diagonal (A : array2 F) : array1 F :=
  Array1 (\col_(i < minn (nrows A) (ncols A)) entry A i i).

(** [np.diag(v)] for a one-dimensional [v]: the diagonal matrix. *)
Definition diag (v : array1 F) : array2 F :=
  Array2 (diag_mx (vec v)^T).

(** [cov_y = np.diag(y_unc**2)]: known uncertainties and no
    correlations. *)
Definition cov_y (y_unc : array1 F) : array2 F :=
  diag (Array1 (map_mx (fun u => u ^+ 2) (vec y_unc))).

End Diagonals.

(** ** The correlation matrix *)

Section Correlation.

Local Open Scope ring_scope.

(** Square roots need a real closed field. *)
Variable K : rcfType.

(** [np.sqrt]: [nan] below zero. *)
Definition sqrt64 (t : K) : float64 K :=
  if t < 0 then NaN else Finite (Num.sqrt t).

(** [1 / a]: [inf] at zero. Zero has no sign here. *)
Definition recip64 (a : float64 K) : float64 K :=
  match a with
  | Finite t => if t == 0 then PosInf else Finite t^-1
  | PosInf | NegInf => Finite 0
  | NaN => NaN
  end.

Definition add64 (a b : float64 K) : float64 K :=
  match a, b with
  | Finite u, Finite v => Finite (u + v)
  | NaN, _ | _, NaN => NaN
  | PosInf, NegInf | NegInf, PosInf => NaN
  | PosInf, _ | _, PosInf => PosInf
  | NegInf, _ | _, NegInf => NegInf
  end.

(** [a * b]; zero times an infinity is [nan]. *)
Definition mul64 (a b : float64 K) : float64 K :=
  match a, b with
  | Finite u, Finite v => Finite (u * v)
  | NaN, _ | _, NaN => NaN
  | Finite u, PosInf | PosInf, Finite u =>
      if 0 < u then PosInf else if u < 0 then NegInf else NaN
  | Finite u, NegInf | NegInf, Finite u =>
      if 0 < u then NegInf else if u < 0 then PosInf else NaN
  | PosInf, PosInf | NegInf, NegInf => PosInf
  | PosInf, NegInf | NegInf, PosInf => NegInf
  end.

(** A two-dimensional array of floating-point values. *)
Record array2_64 : Type := Array2_64 {
  nrows64 : nat;
  ncols64 : nat;
  mx64 : 'M[float64 K]_(nrows64, ncols64)
}.

(** An array of finite values, as floating-point values. *)
Definition float_array (A : array2 K) : array2_64 :=
  Array2_64 (map_mx Finite (mx A)).

(** The sum of the products [a k * b k], added from the left. *)
Definition dot64 (n : nat) (a b : 'I_n -> float64 K) : float64 K :=
  foldl add64 (Finite 0) [seq mul64 (a k) (b k) | k <- enum 'I_n].

(** [A @ B] on floating-point values. *)
Definition matmul64 (A B : array2_64) : result array2_64 :=
  if ncols64 A =P nrows64 B is ReflectT e
  then Ok (Array2_64
             (\matrix_(i, j)
                dot64 (fun k => mx64 A i k)
                      (fun k => castmx (esym e, erefl) (mx64 B) k j)))
  else Raise ValueError.

(** [np.diag(v)] for a one-dimensional [v] of floating-point values. *)
Definition diag64 (n : nat) (v : 'I_n -> float64 K) : array2_64 :=
  Array2_64 (\matrix_(i < n, j < n) if i == j then v i else Finite 0).

(** [def cov_to_corr(cov)]. [1 / np.sqrt] of a diagonal entry that is
    not positive is [inf] or [nan] (a warning, no exception), which the
    two matrix products carry into the result. *)
Definition cov_to_corr (cov : array2 K) : result array2_64 :=
  let d := diagonal cov in
  let D := diag64 (fun i => recip64 (sqrt64 (vec d i 0))) in
  Dcov <- matmul64 D (float_array cov) ;;
  matmul64 Dcov D.

End Correlation.

(** ** The energy cut and the diffraction pattern *)

Section MoreDensities.

Local Open Scope R_scope.

(** [in_range = (E_MIN <= measured) & (measured <= E_MAX)], for one
    event. *)
Definition in_range (m : R) : bool :=
  if Rle_dec E_MIN m then (if Rle_dec m E_MAX then true else false)
  else false.

(** [measured = measured[in_range]] *)
Definition range_cut (measured : seq R) : seq R :=
  filter in_range measured.

(** [LASER_WAVELENGTH_NM = 632.8e-9] *)
Definition LASER_WAVELENGTH_NM : R := 632.8e-9.

(** [np.sinc]: [sin(pi u) / (pi u)], and 1 at [u = 0]. *)
Definition np_sinc (u : R) : R :=
  if Req_dec_T u 0 then 1 else sin (PI * u) / (PI * u).

(** [def theory(phi, A0, b)]: the intensity of the single-slit
    diffraction pattern. *)
Definition theory (phi A0 b : R) : R :=
  (A0 * b * np_sinc (b * sin phi / LASER_WAVELENGTH_NM)) ^ 2.

End MoreDensities.

(** * Properties *)

Section NumPyTheory.

Local Open Scope ring_scope.

Variable F : realFieldType.

Lemma matmul22E n p q (A : 'M[F]_(n, p)) (B : 'M[F]_(p, q)) :
  matmul22 (Array2 A) (Array2 B) = Ok (Array2 (A *m B)).
Proof.
rewrite /matmul22 /=; case: eqP => // e.
by rewrite (eq_axiomK e) castmx_id.
Qed.

Lemma matmul21E n p (A : 'M[F]_(n, p)) (v : 'cV[F]_p) :
  matmul21 (Array2 A) (Array1 v) = Ok (Array1 (A *m v)).
Proof.
rewrite /matmul21 /=; case: eqP => // e.
by rewrite (eq_axiomK e) castmx_id.
Qed.

Lemma matmul12E n p (v : 'cV[F]_n) (A : 'M[F]_(n, p)) :
  matmul12 (Array1 v) (Array2 A) = Ok (Array1 (v^T *m A)^T).
Proof.
rewrite /matmul12 /=; case: eqP => // e.
by rewrite (eq_axiomK e) castmx_id.
Qed.

Lemma matmul11E n (u v : 'cV[F]_n) :
  matmul11 (Array1 u) (Array1 v) = Ok ((u^T *m v) 0 0).
Proof.
rewrite /matmul11 /=; case: eqP => // e.
by rewrite (eq_axiomK e) castmx_id.
Qed.

Lemma subtractE n (u v : 'cV[F]_n) :
  subtract (Array1 u) (Array1 v) = Ok (Array1 (u - v)).
Proof.
rewrite /subtract /=; case: eqP => // e.
by rewrite (eq_axiomK e) castmx_id.
Qed.

Lemma invE n (A : 'M[F]_n) :
  inv (Array2 A) =
  if A \in unitmx then Ok (Array2 (invmx A)) else Raise LinAlgError.
Proof.
rewrite /inv /=; case: eqP => // e.
by rewrite (eq_axiomK e) castmx_id.
Qed.

End NumPyTheory.

Section LeastSquaresTheory.

Local Open Scope ring_scope.

Variable F : realFieldType.

Lemma solve_linear_least_squaresE N P (A : 'M[F]_(N, P)) (Wm : 'M[F]_N)
    (y : 'cV[F]_N) :
  solve_linear_least_squares (Array2 A) (Array2 Wm) (Array1 y) =
  if A^T *m Wm *m A \in unitmx
  then Ok (Array1 (invmx (A^T *m Wm *m A) *m A^T *m Wm *m y),
           Array2 (invmx (A^T *m Wm *m A)))
  else Raise LinAlgError.
Proof.
rewrite /solve_linear_least_squares /transpose /=.
rewrite matmul22E /= matmul22E /= invE.
by case: ifP => //= _; rewrite matmul22E /= matmul22E /= matmul21E.
Qed.




Lemma positive_definite_ge0 N (Wm : 'M[F]_N) (v : 'cV[F]_N) :
  positive_definite Wm -> 0 <= (v^T *m Wm *m v) 0 0.
Proof.
move=> pd; have [->|nz] := eqVneq v 0; first by rewrite mulmx0 mxE.
exact/ltW/pd.
Qed.


Lemma chisquare_over_ndfE N P (Wg : 'M[F]_N) (y : 'cV[F]_N)
    (A : 'M[F]_(N, P)) (theta : 'cV[F]_P) :
  chisquare_over_ndf (Globals (Array2 Wg)) (Array1 y) (Array2 A)
    (Array1 theta) =
  Ok (np_truediv (wssr A Wg y theta) (N%:Z - P%:Z)).
Proof.
rewrite /chisquare_over_ndf matmul21E /= subtractE /= matmul12E /=.
by rewrite matmul11E /= trmxK.
Qed.

(** More parameters than observations: the normal matrix is singular. *)
Lemma normal_matrix_wide N P (A : 'M[F]_(N, P)) (Wm : 'M[F]_N) :
  (N < P)%N -> A^T *m Wm *m A \notin unitmx.
Proof.
move=> ltNP; apply/negP => /mxrank_unit rkP.
have := leq_trans (mxrankM_maxr (A^T *m Wm) A) (rank_leq_row A).
by rewrite rkP leqNgt ltNP.
Qed.

(** Two equal columns in the design matrix: the normal matrix is
    singular. *)
Lemma normal_matrix_dupcol N P (A : 'M[F]_(N, P)) (Wm : 'M[F]_N)
    (j1 j2 : 'I_P) :
  j1 != j2 -> col j1 A = col j2 A -> A^T *m Wm *m A \notin unitmx.
Proof.
move=> ne12 eqc; apply/negP => U.
pose v : 'cV[F]_P := delta_mx j1 0 - delta_mx j2 0.
have Av0 : A *m v = 0 by rewrite mulmxBr -!colE eqc subrr.
have : v = 0.
  by rewrite -[v](mulKmx U) -(mulmxA (A^T *m Wm) A v) Av0 !mulmx0.
move/matrixP/(_ j1 0); rewrite !mxE !eqxx /= (negbTE ne12) subr0.
by move/eqP; rewrite oner_eq0.
Qed.

Lemma Array2_cast n p n' p' (M : 'M[F]_(n, p)) (en : n = n') (ep : p = p') :
  Array2 M = Array2 (castmx (en, ep) M).
Proof. by case: _ / en; case: _ / ep; rewrite castmx_id. Qed.

Lemma is_ok_design_matrix (funcs : seq (array1 F -> array1 F)) x :
  is_ok (design_matrix funcs x) =
  if funcs is f :: _ then all (fun f' => len (f' x) == len (f x)) funcs
  else false.
Proof.
case: funcs => [|f fs] //; rewrite /design_matrix /= eqxx /= all_map.
by case: (all _ fs).
Qed.

Lemma design_matrix_ok (funcs : seq (array1 F -> array1 F)) x N f0 :
  (0 < size funcs)%N -> all (fun f => len (f x) == N) funcs ->
  exists M : 'M[F]_(N, size funcs),
    design_matrix funcs x = Ok (Array2 M)
    /\ forall i j, M i j = item (nth f0 funcs j x) i.
Proof.
case: funcs => [|f fs] // _ /= /andP[/eqP lenf lenfs].
rewrite /design_matrix /= eqxx /= all_map.
have -> : all (preim (fun f' => f' x) (fun c => len c == len (f x))) fs.
  by apply: sub_all lenfs => f' /=; rewrite lenf.
have sz : (size [seq f' x | f' <- fs]).+1 = (size fs).+1 by rewrite size_map.
set M0 := (X in Array2 X); exists (castmx (lenf, sz) M0).
split; first by rewrite -Array2_cast.
move=> i j; rewrite castmxE mxE /=.
have -> : f x :: [seq f' x | f' <- fs] = [seq f' x | f' <- f :: fs] by [].
by rewrite (nth_map f0).
Qed.

(** What [linear_least_squares] returns on well-shaped input: the
    estimate and covariance of the local weights [Wl], and the reduced
    chi-square of the module-level weights [Wg]. *)
Lemma linear_least_squaresE N P (Wg Wl : 'M[F]_N)
    (funcs : seq (array1 F -> array1 F)) (x : array1 F)
    (cov_y : option (array2 F)) (A : 'M[F]_(N, P)) (y : 'cV[F]_N) :
  design_matrix funcs x = Ok (Array2 A) ->
  (if cov_y is Some c then inv c else Ok (eye F N)) = Ok (Array2 Wl) ->
  A^T *m Wl *m A \in unitmx ->
  linear_least_squares (Globals (Array2 Wg)) x (Array1 y) funcs cov_y =
  Ok (Array1 (invmx (A^T *m Wl *m A) *m A^T *m Wl *m y),
      Array2 (invmx (A^T *m Wl *m A)),
      np_truediv
        (wssr A Wg y (invmx (A^T *m Wl *m A) *m A^T *m Wl *m y))
        (N%:Z - P%:Z)).
Proof.
rewrite /linear_least_squares => -> /= -> /= U.
by rewrite solve_linear_least_squaresE U /= chisquare_over_ndfE.
Qed.

(** *** The sample fit: a constant fitted to [y = [1, -1]] *)

Lemma design_matrix_ones :
  design_matrix [:: @ones_like F] (x01 F) = Ok (Array2 (ones_column F)).
Proof.
have [] := @design_matrix_ok [:: @ones_like F] (x01 F) 2 (@ones_like F) isT.
  by [].
move=> M [-> Mij]; congr (Ok (Array2 _)); apply/matrixP => i j.
rewrite Mij !mxE ord1 /= /item; case: insubP => [k _ _|]; first by rewrite mxE.
by rewrite /= ltn_ord.
Qed.

Lemma normal_matrix_ones (a : F) :
  (ones_column F)^T *m a%:M *m ones_column F = (a * 2)%:M.
Proof.
apply/matrixP => i j; rewrite !ord1 -mulmxA mul_scalar_mx !mxE.
rewrite !big_ord_recl big_ord0 !mxE eqxx mulr1n; ring.
Qed.

Lemma moment_ones : (ones_column F)^T *m y1m1_vec F = 0.
Proof.
apply/matrixP => i j; rewrite !ord1 !mxE.
rewrite !big_ord_recl big_ord0 !mxE /=; ring.
Qed.

Lemma wssr_ones (a : F) : wssr (ones_column F) a%:M (y1m1_vec F) 0 = a * 2.
Proof.
rewrite /wssr mulmx0 subr0 -mulmxA mul_scalar_mx !mxE.
rewrite !big_ord_recl big_ord0 !mxE /=; ring.
Qed.

Lemma normal_matrix_ones_unit :
  (ones_column F)^T *m 1%:M *m ones_column F \in unitmx.
Proof.
by rewrite normal_matrix_ones unitmxE det_scalar expr1 unitfE mul1r pnatr_eq0.
Qed.

Lemma linear_least_squares_sample (a : F) :
  linear_least_squares (Globals (Array2 (a%:M : 'M[F]_2))) (x01 F) (y1m1 F)
    [:: @ones_like F] None =
  Ok (Array1 (0 : 'cV[F]_1), Array2 ((2^-1)%:M : 'M[F]_1), Finite (a * 2)).
Proof.
rewrite (@linear_least_squaresE 2 1 a%:M 1%:M _ _ None _ (y1m1_vec F)
           design_matrix_ones erefl normal_matrix_ones_unit).
have -> : invmx ((ones_column F)^T *m 1%:M *m ones_column F)
          *m (ones_column F)^T *m 1%:M *m y1m1_vec F = 0.
  by rewrite -(mulmxA _ 1%:M) mul1mx -mulmxA moment_ones mulmx0.
rewrite wssr_ones /np_truediv /= divr1.
by rewrite normal_matrix_ones mul1r invmx_scalar.
Qed.

(** With a module-level [W] of another shape the same call raises. *)
Lemma linear_least_squares_sample_shape :
  linear_least_squares (Globals (Array2 (1%:M : 'M[F]_1))) (x01 F) (y1m1 F)
    [:: @ones_like F] None = Raise ValueError.
Proof.
rewrite /linear_least_squares design_matrix_ones /=.
rewrite /eye solve_linear_least_squaresE normal_matrix_ones_unit /=.
rewrite /chisquare_over_ndf matmul21E /= subtractE /= /matmul12 /=.
by case: eqP.
Qed.

Lemma symmetric1 N : symmetric (1%:M : 'M[F]_N).
Proof. exact: trmx1. Qed.

Lemma positive_definite1 N : positive_definite (1%:M : 'M[F]_N).
Proof.
move=> v nz; rewrite mulmx1 mxE lt_def; apply/andP; split; last first.
  by apply: sumr_ge0 => i _; rewrite mxE -expr2 sqr_ge0.
apply: contraNneq nz => /eqP; rewrite psumr_eq0.
  by move=> i _; rewrite mxE -expr2 sqr_ge0.
move/allP => z; apply/eqP/matrixP => i j; rewrite ord1 mxE.
have := z i; rewrite mem_index_enum mxE -expr2 sqrf_eq0 => /(_ isT) /eqP.
by [].
Qed.

Lemma design_matrix_raise (funcs : seq (array1 F -> array1 F)) x :
  is_ok (design_matrix funcs x) = false ->
  design_matrix funcs x = Raise ValueError.
Proof.
by case: funcs => [|f fs] //; rewrite /design_matrix /=; case: ifP.
Qed.

Lemma chisquare_over_ndf_nonfinite (g : globals F) y A params v :
  len y = len params -> chisquare_over_ndf g y A params = Ok v ->
  is_finite v = false.
Proof.
move=> eqlen; rewrite /chisquare_over_ndf.
case: (matmul21 _ _) => //= Ap; case: (subtract _ _) => //= r.
case: (matmul12 _ _) => //= rW; case: (matmul11 _ _) => //= s [<-].
rewrite /np_truediv eqlen subrr eqxx.
by case: ifP => // _; case: ifP.
Qed.

End LeastSquaresTheory.

Section DensityTheory.

Local Open Scope R_scope.

Lemma expon_norm_pos (tau : R) : 0 < tau -> 0 < expon_norm tau.
Proof.
move=> tau0; rewrite /expon_norm.
suff : exp (- E_MAX / tau) < exp (- E_MIN / tau) by real_lra.
apply: exp_increasing; rewrite /Rdiv /E_MIN /E_MAX.
by apply: Rmult_lt_compat_r; [apply: Rinv_0_lt_compat | real_lra].
Qed.

Lemma norm_pdf_pos (x mean std : R) : 0 < std -> 0 < norm_pdf x mean std.
Proof.
move=> std0; rewrite /norm_pdf.
apply: Rdiv_lt_0_compat => //; apply: Rdiv_lt_0_compat; first exact: exp_pos.
by apply: sqrt_lt_R0; have := PI_RGT_0; real_lra.
Qed.



Lemma np_log_pos (u : R) : 0 < u -> np_log u = Finite (ln u).
Proof. by rewrite /np_log; case: (Rlt_dec 0 u) => [lt0|nlt0] /=. Qed.


Lemma np_sum_finite (g : R -> R) (data : seq R) (acc : R) :
  (forall u, List.In u data -> 0 < g u) ->
  foldl fadd (Finite acc) [seq np_log (g u) | u <- data] =
  Finite (foldl (fun a u => a + ln (g u)) acc data).
Proof.
elim: data acc => [|u data IH] acc pos //=.
have gu : 0 < g u by apply: pos; left.
rewrite (np_log_pos gu) /=.
by apply: IH => v inv; apply: pos; right.
Qed.

(** *** The histogram range of the binned fit *)

Lemma edgesE (n : nat) :
  (5 <= n)%N -> edges n = [seq INR k / 21.48 | k <- iota 5 (n - 5).+1].
Proof. by move=> le5; rewrite /edges -map_drop drop_iota add0n subSn. Qed.

Lemma T_MIN_E (n : nat) : (5 <= n)%N -> T_MIN n = 5 / 21.48.
Proof.
move=> le5; rewrite /T_MIN edgesE //=.
by congr (_ / _); real_ring.
Qed.

Lemma T_MAX_E (n : nat) : (5 <= n)%N -> T_MAX n = INR n / 21.48.
Proof.
move=> le5; rewrite /T_MAX edgesE // -nth_last size_map size_iota succnK.
by rewrite (nth_map 0%N) ?size_iota // nth_iota // subnKC.
Qed.

Lemma expon_cdf_ge0 (u tau : R) :
  0 <= u -> 0 < tau -> expon_cdf u tau = 1 - exp (- (u / tau)).
Proof.
move=> u0 tau0; rewrite /expon_cdf.
case: (Rle_dec 0 (u / tau)) => [le0|nle0] //=.
by case: nle0; apply: Rmult_le_pos => //; apply/Rlt_le/Rinv_0_lt_compat.
Qed.

Lemma cdf_mass (n : nat) (tau p : R) :
  (5 < n)%N -> 0 < tau ->
  cdf n (T_MAX n) tau p - cdf n (T_MIN n) tau p =
  1 - (1 - p) * (T_MIN n / T_MAX n).
Proof.
move=> lt5 tau0; rewrite /cdf T_MIN_E ?T_MAX_E; try exact: ltnW.
have n5 : 5 < INR n by have /= := lt_INR _ _ (elimT ssrnat.ltP lt5); real_lra.
set a := 5 / 21.48; set b := INR n / 21.48.
have a0 : 0 < a by rewrite /a; real_lra.
have ab : a < b by rewrite /a /b; real_lra.
rewrite !expon_cdf_ge0; try real_lra.
have eab : exp (- (b / tau)) < exp (- (a / tau)).
  apply: exp_increasing; apply: Ropp_lt_contravar; rewrite /Rdiv.
  by apply: Rmult_lt_compat_r => //; apply: Rinv_0_lt_compat.
rewrite /uniform_cdf.
have -> : (a - a) / b = 0 by rewrite /Rdiv; real_field; real_lra.
have ab1 : 0 < a / b < 1.
  split; first by apply: Rdiv_lt_0_compat; real_lra.
  apply: (Rmult_lt_reg_r b); first by real_lra.
  by rewrite /Rdiv Rmult_assoc Rinv_l; real_lra.
have zE : (b - a) / b = 1 - a / b by real_field; real_lra.
have z01 : 0 < (b - a) / b < 1 by rewrite zE; real_lra.
case: (Rlt_dec 0 0) => [|_] /=; first by real_lra.
case: (Rlt_dec 1 0) => [|_] /=; first by real_lra.
case: (Rlt_dec ((b - a) / b) 0) => [|_] /=; first by real_lra.
case: (Rlt_dec 1 ((b - a) / b)) => [|_] /=; first by real_lra.
by real_field; split; real_lra.
Qed.

(** *** Integrals of the sub-densities over the detector range *)

(** The primitive [- exp (- (u / tau))] of the exponential density. *)
Lemma background_primitive_lim (tau u : R) :
  derivable_pt_lim (fun v => - exp (- (v / tau))) u (exp (- (u / tau)) / tau).
Proof.
have h : derivable_pt_lim (- (comp exp (- (mult_real_fct (/ tau) id))))%F u
           (- (exp ((- (mult_real_fct (/ tau) id))%F u) * - (/ tau * 1))).
  apply: derivable_pt_lim_opp; apply: derivable_pt_lim_comp.
    by apply: derivable_pt_lim_opp; apply: derivable_pt_lim_scal;
       exact: derivable_pt_lim_id.
  exact: derivable_pt_lim_exp.
have -> : exp (- (u / tau)) / tau =
          - (exp ((- (mult_real_fct (/ tau) id))%F u) * - (/ tau * 1)).
  rewrite /opp_fct /mult_real_fct /id /Rdiv (Rmult_comm u); real_ring.
apply: derivable_pt_lim_ext h => v.
by rewrite /opp_fct /comp /mult_real_fct /id /Rdiv (Rmult_comm v).
Qed.

Lemma background_primitive_derivable (tau : R) :
  derivable (fun v => - exp (- (v / tau))).
Proof.
by move=> u; exists (exp (- (u / tau)) / tau); exact: background_primitive_lim.
Qed.

Lemma background_primitive_derive (tau u : R) :
  derive _ (background_primitive_derivable tau) u = exp (- (u / tau)) / tau.
Proof. by apply: derive_pt_eq_0; exact: background_primitive_lim. Qed.

Lemma expon_density_continuity (tau : R) :
  continuity (fun u => exp (- (u / tau)) / tau).
Proof. by rewrite /Rdiv; reg. Qed.

Lemma norm_pdf_continuity (mean std : R) :
  continuity (fun u => norm_pdf u mean std).
Proof. by rewrite /norm_pdf /Rdiv; reg. Qed.

Lemma background_primitive_continuity (tau : R) :
  continuity (derive _ (background_primitive_derivable tau)).
Proof.
move=> u.
apply: (@continuity_pt_locally_ext (fun v => exp (- (v / tau)) / tau) _ 1).
- by real_lra.
- by move=> v _; rewrite background_primitive_derive.
- exact: expon_density_continuity.
Qed.

Definition background_primitive (tau : R) : C1_fun :=
  mkC1 (background_primitive_continuity tau).

Lemma expon_pdf_range (tau u : R) :
  0 < tau -> E_MIN <= u <= E_MAX ->
  expon_pdf u tau = derive _ (diff0 (background_primitive tau)) u.
Proof.
move=> tau0 []; rewrite /E_MIN => u75 _.
rewrite /= background_primitive_derive /expon_pdf.
case: (Rle_dec 0 (u / tau)) => [le0|nle0] //=.
case: nle0; apply: Rmult_le_pos; first by real_lra.
exact/Rlt_le/Rinv_0_lt_compat.
Qed.

Lemma range_le : E_MIN <= E_MAX.
Proof. rewrite /E_MIN /E_MAX; real_lra. Qed.

Lemma expon_pdf_integrable (tau : R) :
  0 < tau -> Riemann_integrable (fun u => expon_pdf u tau) E_MIN E_MAX.
Proof.
move=> tau0.
apply: Riemann_integrable_ext (RiemannInt_P32 (background_primitive tau) _ _).
move=> u; rewrite Rmin_left ?Rmax_right; try exact: range_le.
by move=> ur; rewrite -expon_pdf_range.
Qed.

(** The exponential density has mass [expon_norm tau] in the range. *)
Lemma expon_pdf_integral (tau : R)
    (pr : Riemann_integrable (fun u => expon_pdf u tau) E_MIN E_MAX) :
  0 < tau -> RiemannInt pr = expon_norm tau.
Proof.
move=> tau0.
rewrite (RiemannInt_P18 pr (RiemannInt_P32 (background_primitive tau) _ _)).
- exact: range_le.
- by move=> u ur; apply: expon_pdf_range => //; real_lra.
- rewrite (FTC_Riemann (background_primitive tau)) /= /expon_norm /Rdiv.
  by rewrite !Ropp_mult_distr_l; real_ring.
Qed.

Lemma norm_pdf_integrable (mean std : R) :
  Riemann_integrable (fun u => norm_pdf u mean std) E_MIN E_MAX.
Proof.
apply: continuity_implies_RiemannInt; first exact: range_le.
by move=> u _; exact: norm_pdf_continuity.
Qed.

Lemma pdf_integrable (mean std tau p : R) :
  0 < tau -> Riemann_integrable (fun u => pdf u mean std tau p) E_MIN E_MAX.
Proof.
move=> tau0; rewrite /pdf.
apply: (@RiemannInt_P10 (fun u => p * norm_pdf u mean std)
          (fun u => expon_pdf u tau)).
  exact/Riemann_integrable_scal/norm_pdf_integrable.
exact: expon_pdf_integrable.
Qed.

Lemma RiemannInt_scal_l (f : R -> R) (a b k : R)
    (pr : Riemann_integrable f a b)
    (prk : Riemann_integrable (fun u => k * f u) a b) :
  a <= b -> RiemannInt prk = k * RiemannInt pr.
Proof.
move=> ab.
have pr0 := RiemannInt_P14 a b 0.
have pr3 := RiemannInt_P10 k pr0 pr.
have -> : RiemannInt prk = RiemannInt pr3.
  by apply: RiemannInt_P18 => // u _; rewrite /fct_cte; real_ring.
by rewrite (RiemannInt_P13 pr0 pr pr3) RiemannInt_P15; real_ring.
Qed.

(** The integral of the composite density over the range. *)
Lemma pdf_integral (mean std tau p : R)
    (pr : Riemann_integrable (fun u => pdf u mean std tau p) E_MIN E_MAX)
    (prn : Riemann_integrable (fun u => norm_pdf u mean std) E_MIN E_MAX) :
  0 < tau -> RiemannInt pr = p * RiemannInt prn + (1 - p).
Proof.
move=> tau0.
have prs := Riemann_integrable_scal p prn.
have pre := expon_pdf_integrable tau0.
rewrite (RiemannInt_P13 prs pre pr) (RiemannInt_scal_l prn prs range_le).
rewrite (expon_pdf_integral pre tau0).
by have := expon_norm_pos tau0 => en0; real_field; real_lra.
Qed.

Lemma norm_pdf_le (u mean std : R) :
  0 < std -> norm_pdf u mean std <= / 2 / std.
Proof.
move=> std0; rewrite /norm_pdf.
set t := - ((u - mean) / std) ^ 2 / 2.
have t0 : t <= 0 by rewrite /t; have := pow2_ge_0 ((u - mean) / std); real_lra.
have e1 : exp t <= 1.
  by rewrite -exp_0; case: t0 => [/exp_increasing/Rlt_le|->] //; real_lra.
have s2 : 2 <= sqrt (2 * PI).
  apply: (Rle_trans _ (sqrt (2 * 2))).
    by rewrite sqrt_square; real_lra.
  by apply: sqrt_le_1_alt; have := PI2_1; real_lra.
have e0 := exp_pos t.
apply: Rmult_le_compat_r; first exact/Rlt_le/Rinv_0_lt_compat.
apply: (Rle_trans _ (1 / sqrt (2 * PI))).
  by apply: Rmult_le_compat_r => //; apply/Rlt_le/Rinv_0_lt_compat; real_lra.
rewrite /Rdiv Rmult_1_l; apply: Rinv_le_contravar => //; real_lra.
Qed.

Lemma norm_pdf_integral_le (mean std : R)
    (prn : Riemann_integrable (fun u => norm_pdf u mean std) E_MIN E_MAX) :
  0 < std -> RiemannInt prn <= 50 / std.
Proof.
move=> std0.
have [] := @RiemannInt_const_bound _ E_MIN E_MAX 0 (/ 2 / std) prn range_le.
  move=> u _; split; last exact: norm_pdf_le.
  exact/Rlt_le/norm_pdf_pos.
move=> _; rewrite /E_MIN /E_MAX => le; apply: Rle_trans le _.
by right; real_field; real_lra.
Qed.

End DensityTheory.

(** * The claims on the linear least-squares cells *)

Section LeastSquaresClaims.

Local Open Scope ring_scope.



(** C2. Evaluation at a failing input: with the module-level [W] equal
    to twice the identity and no [cov_y], the fit of a constant to
    [y = [1, -1]] solves with the identity weights but returns the
    reduced chi-square of the module-level weights, 4, where the
    identity weights of the solve give 2. *)
Theorem linear_least_squares_chisquare_uses_global (F : realFieldType) :
  exists (theta : 'cV[F]_1) (C : 'M[F]_1) (chi : F),
    linear_least_squares (Globals (Array2 (2%:M : 'M[F]_2))) (x01 F)
      (y1m1 F) [:: @ones_like F] None
    = Ok (Array1 theta, Array2 C, Finite chi)
    /\ chi = 4
    /\ np_truediv (wssr (ones_column F) 1%:M (y1m1_vec F) theta)
         (2%:Z - 1%:Z) = Finite 2
    /\ chi <> 2.
Proof.
exists 0, (2^-1)%:M, (2 * 2); split; first exact: linear_least_squares_sample.
split; first by ring.
split; first by rewrite wssr_ones /np_truediv /= divr1 mul1r.
by move=> eq42; lra.
Qed.

(** C5. The result of [linear_least_squares] depends on the
    module-level [W]: the same arguments give different results under
    two module states. *)
Theorem linear_least_squares_reads_global (F : realFieldType) :
  exists g1 g2 : globals F,
    linear_least_squares g1 (x01 F) (y1m1 F) [:: @ones_like F] None
    <> linear_least_squares g2 (x01 F) (y1m1 F) [:: @ones_like F] None.
Proof.
exists (Globals (Array2 (1%:M : 'M[F]_2))), (Globals (Array2 (2%:M : 'M[F]_2))).
rewrite !linear_least_squares_sample => -[] eq24.
by lra.
Qed.

(** C6, as the code has it. [solve_linear_least_squares] checks neither
    [N >= P] nor the weight matrix. Whatever routine inverts the normal
    matrix [A^T Wm A] (one that returns a matrix of the shape of its
    argument, or raises), the solver raises exactly the error that
    routine raises on [A^T Wm A], and whenever the routine returns a
    matrix [C] the solver returns the estimate [C A^T Wm y] and [C] as
    covariance. The exact inverse [inv] is such a routine, and with it
    the cell is [solve_linear_least_squares]. *)
Theorem solve_linear_least_squares_singular (F : realFieldType) (N P : nat)
    (A : 'M[F]_(N, P)) (Wm : 'M[F]_N) (y : 'cV[F]_N)
    (linalg_inv : array2 F -> result (array2 F)) :
  (forall M C, linalg_inv M = Ok C ->
     nrows C = nrows M /\ ncols C = ncols M) ->
  (forall e,
     solve_linear_least_squares_with linalg_inv
       (Array2 A) (Array2 Wm) (Array1 y) = Raise e
     <-> linalg_inv (Array2 (A^T *m Wm *m A)) = Raise e)
  /\ (forall C : 'M[F]_P,
        linalg_inv (Array2 (A^T *m Wm *m A)) = Ok (Array2 C) ->
        solve_linear_least_squares_with linalg_inv
          (Array2 A) (Array2 Wm) (Array1 y)
        = Ok (Array1 (C *m A^T *m Wm *m y), Array2 C))
  /\ solve_linear_least_squares (Array2 A) (Array2 Wm) (Array1 y)
     = solve_linear_least_squares_with (@inv F)
         (Array2 A) (Array2 Wm) (Array1 y).
Proof.
move=> shape.
have red : solve_linear_least_squares_with linalg_inv
             (Array2 A) (Array2 Wm) (Array1 y)
    = (cov <- linalg_inv (Array2 (A^T *m Wm *m A)) ;;
       covAt <- matmul22 cov (Array2 A^T) ;;
       covAtW <- matmul22 covAt (Array2 Wm) ;;
       parameters <- matmul21 covAtW (Array1 y) ;; Ok (parameters, cov)).
  rewrite /solve_linear_least_squares_with /transpose /=.
  by rewrite matmul22E /= matmul22E.
have ok (C : 'M[F]_P) :
    linalg_inv (Array2 (A^T *m Wm *m A)) = Ok (Array2 C) ->
    solve_linear_least_squares_with linalg_inv
      (Array2 A) (Array2 Wm) (Array1 y)
    = Ok (Array1 (C *m A^T *m Wm *m y), Array2 C).
  by rewrite red => ->; rewrite /= matmul22E /= matmul22E /= matmul21E.
split; last by [].
move=> e; case E: (linalg_inv (Array2 (A^T *m Wm *m A))) => [[r c C]|e'].
  have [/= er ec] := shape _ _ E; subst r c.
  by rewrite (ok C E); split.
by rewrite red E /=; split=> -[->].
Qed.

Lemma solve_linear_least_squares_singular_witness :
  (forall M C : array2 rat, inv M = Ok C ->
     nrows C = nrows M /\ ncols C = ncols M)
  /\ (forall e,
        solve_linear_least_squares_with (@inv rat)
          (Array2 (ones_column rat)) (Array2 (1%:M : 'M[rat]_2))
          (y1m1 rat) = Raise e
        <-> inv (Array2 ((ones_column rat)^T *m (1%:M : 'M[rat]_2)
                         *m ones_column rat)) = Raise e).
Proof.
have shape : forall M C : array2 rat, inv M = Ok C ->
    nrows C = nrows M /\ ncols C = ncols M.
  move=> [r c M] C; rewrite /inv /=; case: eqP => // e.
  by case: ifP => // _ [<-].
split; first exact: shape.
by have [h _] := @solve_linear_least_squares_singular rat 2 1
     (ones_column rat) 1%:M (y1m1_vec rat) (@inv rat) shape.
Defined.

(** C6 as stated fails: a weight matrix with the negative eigenvalue -1
    (one observation, one parameter) is solved without an error. *)
Lemma solve_linear_least_squares_negative_weight :
  ~ (forall (N P : nat) (A : 'M[rat]_(N, P)) (Wm : 'M[rat]_N)
       (y : 'cV[rat]_N),
       (exists (lam : rat) (v : 'cV[rat]_N),
           lam <= 0 /\ v != 0 /\ Wm *m v = lam *: v) ->
       solve_linear_least_squares (Array2 A) (Array2 Wm) (Array1 y)
         = Raise LinAlgError).
Proof.
move/(_ 1%N 1%N 1%:M (-1)%:M 1%:M).
rewrite solve_linear_least_squaresE trmx1 mul1mx mulmx1 unitmxE det_scalar.
rewrite expr1 unitrN unitr1 => raise.
suff /raise : exists (lam : rat) (v : 'cV[rat]_1),
    lam <= 0 /\ v != 0 /\ (-1)%:M *m v = lam *: v by [].
exists (-1), 1%:M; split; first by rewrite lerN10.
split; first by apply/eqP => /matrixP /(_ 0 0) /eqP; rewrite !mxE oner_eq0.
by rewrite mul_scalar_mx.
Qed.

(** C9, as the code has it. [design_matrix] succeeds exactly when there
    is a basis function and all results [f(x)] have one length; it then
    returns the matrix whose column [j] is the result of basis function
    [j] on the whole sample array, which for element-wise basis
    functions is the value at sample [i] in row [i]; otherwise it raises
    NumPy's [ValueError]. The length of the results is not compared
    with the length of [x]. *)
Theorem design_matrix_spec (F : realFieldType)
    (funcs : seq (array1 F -> array1 F)) (x : array1 F) :
  (is_ok (design_matrix funcs x)
   = if funcs is f :: _ then all (fun f' => len (f' x) == len (f x)) funcs
     else false)
  /\ (is_ok (design_matrix funcs x) = false ->
      design_matrix funcs x = Raise ValueError)
  /\ (forall (N : nat) (f0 : array1 F -> array1 F),
        (0 < size funcs)%N -> all (fun f => len (f x) == N) funcs ->
        exists M : 'M[F]_(N, size funcs),
          design_matrix funcs x = Ok (Array2 M)
          /\ forall i j, M i j = item (nth f0 funcs j x) i)
  /\ (forall (gs : seq (F -> F)) (g0 : F -> F),
        funcs = [seq ufunc g | g <- gs] -> (0 < size gs)%N ->
        exists M : 'M[F]_(len x, size gs),
          design_matrix funcs x = Ok (Array2 M)
          /\ forall i j, M i j = nth g0 gs j (vec x i 0)).
Proof.
split; first exact: is_ok_design_matrix.
split; first exact: design_matrix_raise.
split; first by move=> N f0; exact: design_matrix_ok.
move=> gs g0 -> gs0.
have sz : size [seq ufunc g | g <- gs] = size gs by rewrite size_map.
have [] := @design_matrix_ok _ [seq ufunc g | g <- gs] x (len x) (ufunc g0).
- by rewrite sz.
- by rewrite all_map (@eq_all _ _ predT) ?all_predT // => g /=; exact: eqxx.
move=> M [eqM Mij]; exists (castmx (erefl, sz) M).
split; first by rewrite eqM (Array2_cast M erefl sz).
move=> i j; rewrite castmxE Mij /= (nth_map g0) // /item.
case: insubP => [k _ ki|]; last by rewrite ltn_ord.
by rewrite /= mxE; congr (nth _ _ _ (vec _ _ _)); apply: val_inj.
Qed.

(** C9 as stated fails: one basis function returning three values for
    two samples gives a 3 x 1 matrix, no error. *)
Lemma design_matrix_mismatch_accepted :
  ~ (forall (funcs : seq (array1 rat -> array1 rat)) (x : array1 rat),
       has (fun f => len (f x) != len x) funcs ->
       is_ok (design_matrix funcs x) = false).
Proof. by move/(_ [:: @ones rat 3] (x01 rat) isT). Qed.

(** C10. With as many observations as parameters the division by
    [ndf = 0] is not an error: [chisquare_over_ndf] returns [inf],
    [-inf] or [nan]. *)
Theorem chisquare_over_ndf_zero_ndf (F : realFieldType) :
  (forall (g : globals F) (y : array1 F) (A : array2 F) (params : array1 F)
          (v : float64 F),
      len y = len params -> chisquare_over_ndf g y A params = Ok v ->
      is_finite v = false)
  /\ (forall (N : nat) (Wg A : 'M[F]_N) (y theta : 'cV[F]_N),
      exists v : float64 F,
        chisquare_over_ndf (Globals (Array2 Wg)) (Array1 y) (Array2 A)
          (Array1 theta) = Ok v
        /\ is_finite v = false).
Proof.
split; first by move=> g y A params v; exact: chisquare_over_ndf_nonfinite.
move=> N Wg A y theta; rewrite chisquare_over_ndfE.
eexists; split; first by [].
by rewrite /np_truediv subrr eqxx; case: ifP => // _; case: ifP.
Qed.

End LeastSquaresClaims.

(** * Lemmas on the likelihood in floating point *)

Section FloatLikelihoodTheory.

Local Open Scope R_scope.












Lemma pdf64_exact (x mean std tau p : R) :
  0 < std -> 0 < tau ->
  pdf64 exact x mean std tau p = Finite (pdf x mean std tau p).
Proof.
move=> std0 tau0; rewrite /pdf64 /pdf /=.
have t0 : tau <> 0 by real_lra.
case: (Rlt_dec 0 std) => [_|] //=; case: (Rlt_dec 0 tau) => [_|] //=.
case: (Req_dec_T tau 0) => [|_] //=.
have en := expon_norm_pos tau0; rewrite /expon_norm in en.
case: (Req_dec_T _ 0) => [e0|_] /=; first by move: en; rewrite /Rminus e0; real_lra.
by [].
Qed.






End FloatLikelihoodTheory.

(** * The claims on the likelihood fits *)

Section LikelihoodClaims.

Local Open Scope R_scope.

(** C3. Evaluation of the code: over the whole histogram range the
    model [cdf] of the binned fit gains [1 - (1 - p) * T_MIN / T_MAX],
    which is 1 only for [p = 1]: the uniform background is spread over
    [[T_MIN, T_MIN + T_MAX]], not [[T_MIN, T_MAX]]. *)
Theorem cdf_range_mass (n : nat) (tau p : R) :
  (5 < n)%N -> 0 < tau ->
  cdf n (T_MAX n) tau p - cdf n (T_MIN n) tau p
    = 1 - (1 - p) * (T_MIN n / T_MAX n)
  /\ 0 < T_MIN n / T_MAX n
  /\ (p <> 1 -> cdf n (T_MAX n) tau p - cdf n (T_MIN n) tau p <> 1).
Proof.
move=> lt5 tau0; have mass := cdf_mass p lt5 tau0.
have n5 : 5 < INR n by have /= := lt_INR _ _ (elimT ssrnat.ltP lt5); real_lra.
have r0 : 0 < T_MIN n / T_MAX n.
  rewrite T_MIN_E ?T_MAX_E; try exact: ltnW.
  by apply: Rdiv_lt_0_compat; apply: Rdiv_lt_0_compat; real_lra.
split; first exact: mass.
split; first exact: r0.
by rewrite mass => p1; real_nra.
Qed.

(** The starting values of the notebook, [tau = 2] and [p = 0.99], on a
    histogram of ten channels. *)
Lemma cdf_range_mass_witness :
  (5 < 10)%N /\ 0 < 2
  /\ cdf 10 (T_MAX 10) 2 0.99 - cdf 10 (T_MIN 10) 2 0.99
       = 1 - (1 - 0.99) * (T_MIN 10 / T_MAX 10)
  /\ 0 < T_MIN 10 / T_MAX 10
  /\ (0.99 <> 1 -> cdf 10 (T_MAX 10) 2 0.99 - cdf 10 (T_MIN 10) 2 0.99 <> 1).
Proof.
have lt5 : (5 < 10)%N by [].
have tau0 : 0 < 2 by real_lra.
split; first exact: lt5.
split; first exact: tau0.
exact: (@cdf_range_mass 10 2 0.99 lt5 tau0).
Defined.

(** C4, as the code has it. Over the detector range the composite
    density integrates to [p * M + (1 - p)], where [M] is the mass of
    the normal density in the range: the exponential background is
    normalised to the range, the normal signal is not truncated. For
    [p = 0] the integral is exactly 1. *)
Theorem pdf_integral_spec (mean std tau p : R)
    (pr : Riemann_integrable (fun u => pdf u mean std tau p) E_MIN E_MAX)
    (prn : Riemann_integrable (fun u => norm_pdf u mean std) E_MIN E_MAX) :
  0 < std -> 0 < tau -> 0 <= p <= 1 ->
  RiemannInt pr = p * RiemannInt prn + (1 - p)
  /\ RiemannInt prn <= 50 / std
  /\ (p = 0 -> RiemannInt pr = 1).
Proof.
move=> std0 tau0 p01; have int := pdf_integral pr prn tau0.
split; first exact: int.
split; first exact: norm_pdf_integral_le.
by rewrite int => ->; real_ring.
Qed.

(** The starting values of the notebook. *)
Lemma pdf_integral_spec_witness :
  0 < 2 /\ 0 < 30 /\ 0 <= 0.2 <= 1
  /\ exists (pr : Riemann_integrable (fun u => pdf u 130 2 30 0.2) E_MIN E_MAX)
            (prn : Riemann_integrable (fun u => norm_pdf u 130 2) E_MIN E_MAX),
       RiemannInt pr = 0.2 * RiemannInt prn + (1 - 0.2)
       /\ RiemannInt prn <= 50 / 2
       /\ (0.2 = 0 -> RiemannInt pr = 1).
Proof.
have std0 : 0 < 2 by real_lra.
have tau0 : 0 < 30 by real_lra.
have p01 : 0 <= 0.2 <= 1 by real_lra.
split; first exact: std0.
split; first exact: tau0.
split; first exact: p01.
exists (pdf_integrable 130 2 0.2 tau0), (norm_pdf_integrable 130 2).
exact: (pdf_integral_spec _ _ std0 tau0 p01).
Defined.

(** C4 as stated fails: a pure signal ([p = 1]) of width 100 has mass
    at most 1/2 in the range. *)
Lemma pdf_integral_not_one :
  ~ (forall (mean std tau p : R)
       (pr : Riemann_integrable (fun u => pdf u mean std tau p) E_MIN E_MAX),
       0 < std -> 0 < tau -> 0 <= p <= 1 -> RiemannInt pr = 1).
Proof.
have std0 : 0 < 100 by real_lra.
have tau0 : 0 < 50 by real_lra.
have p01 : 0 <= 1 <= 1 by real_lra.
move/(_ 125 100 50 1 (pdf_integrable 125 100 1 tau0) std0 tau0 p01).
rewrite (pdf_integral _ (norm_pdf_integrable 125 100) tau0).
by have := norm_pdf_integral_le (norm_pdf_integrable 125 100) std0; real_lra.
Qed.



End LikelihoodClaims.

(** * Lemmas on the linear fit *)

Section LinearFitMore.

Local Open Scope ring_scope.

Variable F : realFieldType.

Lemma size_tolist (v : array1 F) : size (tolist v) = len v.
Proof. by rewrite /tolist size_map size_enum_ord. Qed.

Lemma nth_tolist (v : array1 F) (j : 'I_(len v)) :
  nth 0 (tolist v) j = vec v j 0.
Proof.
by rewrite /tolist (nth_map j) ?size_enum_ord ?ltn_ord // nth_ord_enum.
Qed.

Lemma item_scale (p : F) (a : array1 F) (i : nat) :
  item (scale p a) i = p * item a i.
Proof.
rewrite /item /=; case: insubP => [k _ _|_]; first by rewrite !mxE.
by rewrite mulr0.
Qed.

Lemma item_ord (a : array1 F) (i : 'I_(len a)) : item a i = vec a i 0.
Proof.
rewrite /item; case: insubP => [k _ ki|]; last by rewrite ltn_ord.
by congr (vec a _ 0); apply: val_inj.
Qed.

Lemma sum_zip (T : Type) (ps : seq F) (ts : seq T) (t0 : T) (g : T -> F) :
  size ps = size ts ->
  \sum_(pt <- zip ps ts) pt.1 * g pt.2
  = \sum_(j < size ts) nth 0 ps j * g (nth t0 ts j).
Proof.
move=> sz; rewrite (big_nth (0, t0)) size_zip sz minnn big_mkord.
by apply: eq_bigr => j _; rewrite nth_zip.
Qed.

Lemma all_len_terms (x : array1 F) (ps : seq F)
    (funcs : seq (array1 F -> array1 F)) (n : nat) :
  size ps = size funcs ->
  all (fun t => len t == n) [seq scale pf.1 (pf.2 x) | pf <- zip ps funcs]
  = all (fun f => len (f x) == n) funcs.
Proof.
elim: funcs ps => [|f fs IH] [|p ps] //= [sz].
by rewrite IH.
Qed.

Lemma design_matrix_cons (x : array1 F) (f : array1 F -> array1 F)
    (fs : seq (array1 F -> array1 F)) :
  design_matrix (f :: fs) x =
  if all (fun g => len (g x) == len (f x)) (f :: fs)
  then Ok (Array2 (\matrix_(i < len (f x), j < size [seq g x | g <- f :: fs])
                     item (nth (f x) [seq g x | g <- f :: fs] j) i))
  else Raise ValueError.
Proof. by rewrite /design_matrix /= eqxx /= all_map. Qed.

Lemma np_sum_axis0_terms (x : array1 F) (ps : seq F)
    (f : array1 F -> array1 F) (fs : seq (array1 F -> array1 F)) :
  size ps = (size fs).+1 ->
  np_sum_axis0 [seq scale pf.1 (pf.2 x) | pf <- zip ps (f :: fs)] =
  if all (fun g => len (g x) == len (f x)) (f :: fs)
  then Ok (Vector (Array1 (\col_(i < len (f x))
             \sum_(pf <- zip ps (f :: fs)) pf.1 * item (pf.2 x) i)))
  else Raise ValueError.
Proof.
move=> sz; rewrite -(@all_len_terms x ps (f :: fs) _ sz).
case: ps sz => [|p ps] // sz; rewrite [map _ _]/= /np_sum_axis0.
case: ifP => // _; congr (Ok (Vector (Array1 _))).
apply/matrixP => i j; rewrite !mxE /= !big_cons item_scale; congr (_ + _).
by rewrite big_map; apply: eq_bigr => pf _; rewrite item_scale.
Qed.

Lemma linear_combination_agrees (x : array1 F)
    (funcs : seq (array1 F -> array1 F)) (parameters : array1 F) :
  (0 < size funcs)%N ->
  linear_combination x funcs parameters
  = (A <- design_matrix funcs x ;;
     v <- matmul21 A parameters ;; Ok (Vector v)).
Proof.
case: funcs => [|f fs] // _; rewrite design_matrix_cons /linear_combination.
case: parameters => n v; rewrite [len _]/=.
have szc : size [seq g x | g <- f :: fs] = (size fs).+1 by rewrite size_map.
case: (n =P size (f :: fs)) => [en|ne]; last first.
  case: ifP => // _; rewrite /= /matmul21 /=; case: eqP => // e.
  by case: ne; rewrite -e /= size_map.
subst n; rewrite np_sum_axis0_terms ?size_tolist //.
case: ifP => // _; rewrite [bind _ _]/= /matmul21 [ncols _]/= [len _]/=.
case: eqP => [e|]; last by rewrite size_map.
rewrite [bind _ _]/=; congr (Ok (Vector (Array1 _))).
apply/matrixP => i j; rewrite ord1 !mxE.
rewrite (sum_zip f (fun g => item (g x) i)) ?size_tolist //.
pose G k := nth 0 (tolist (Array1 v)) k * item (nth f (f :: fs) k x) i.
rewrite -[LHS]/(\sum_(k < size (f :: fs)) G k) -(big_mkord xpredT G).
rewrite [RHS](_ : _ = \sum_(k < (size [seq g x | g <- fs]).+1) G k); last first.
  by rewrite -[RHS](big_mkord xpredT G) size_map.
apply: eq_bigr => k _; rewrite /G castmxE !mxE /= mulrC.
congr (_ * _).
  have -> : cast_ord (esym (esym e)) k = cast_ord e k by apply: val_inj.
  by rewrite [cast_ord erefl 0]ord1 -(@nth_tolist (Array1 v)).
rewrite -[f x :: _]/([seq g x | g <- f :: fs]) (nth_map f) //.
by move: (nat_of_ord k) (ltn_ord k) => kn; rewrite /= size_map.
Qed.


















End LinearFitMore.

(** * Lemmas on diagonal weights *)

Section WeightsTheory.

Local Open Scope ring_scope.

Variable F : realFieldType.





End WeightsTheory.

(** * Results on the linear fit *)

Section LinearFitProperties.

Local Open Scope ring_scope.

(** X1. [linear_combination(x, funcs, parameters)] is the product of
    the design matrix with the parameters, errors included: with at
    least one basis function it returns what
    [design_matrix(funcs, x) @ parameters] returns and raises where that
    raises; with no basis function it returns the scalar 0 for an empty
    parameter array and raises [ValueError] otherwise. *)
Theorem linear_combination_is_design_product (F : realFieldType)
    (x : array1 F) (funcs : seq (array1 F -> array1 F))
    (parameters : array1 F) :
  linear_combination x funcs parameters =
  if funcs is [::]
  then if len parameters == 0%N then Ok (Scalar 0) else Raise ValueError
  else (A <- design_matrix funcs x ;;
        v <- matmul21 A parameters ;; Ok (Vector v)).
Proof.
case: funcs => [|f fs]; last exact: linear_combination_agrees.
rewrite /linear_combination /=; case: ifP => // /eqP len0.
by have -> : tolist parameters = [::] by apply: size0nil; rewrite size_tolist.
Qed.









(** X6. [solve_linear_least_squares] never returns on mis-shaped input:
    whenever it returns, [W] is square of the row count of [A] and [y]
    has that length. *)
Theorem solve_linear_least_squares_shapes (F : realFieldType)
    (A Wm : array2 F) (y : array1 F) :
  is_ok (solve_linear_least_squares A Wm y) ->
  nrows Wm = nrows A /\ ncols Wm = nrows A /\ len y = nrows A.
Proof.
rewrite /solve_linear_least_squares /matmul22 /=.
case: eqP => //= e1; case: eqP => //= e2; case: (inv _) => //= cov.
case: eqP => //= e3; case: eqP => //= e4; rewrite /matmul21 /=.
by case: eqP => //= e5 _; split; rewrite -?e1 // -e5.
Qed.

Lemma solve_linear_least_squares_shapes_witness :
  is_ok (solve_linear_least_squares (Array2 (ones_column rat))
           (Array2 (1%:M : 'M[rat]_2)) (y1m1 rat))
  /\ nrows (Array2 (1%:M : 'M[rat]_2)) = nrows (Array2 (ones_column rat))
  /\ ncols (Array2 (1%:M : 'M[rat]_2)) = nrows (Array2 (ones_column rat))
  /\ len (y1m1 rat) = nrows (Array2 (ones_column rat)).
Proof.
have ok : is_ok (solve_linear_least_squares (Array2 (ones_column rat))
                   (Array2 (1%:M : 'M[rat]_2)) (y1m1 rat)).
  by rewrite solve_linear_least_squaresE normal_matrix_ones_unit.
split; first exact: ok.
exact: (solve_linear_least_squares_shapes ok).
Defined.



(** X8. The model [func] handed to [curve_fit] is the linear
    combination of [funcs = [np.ones_like, np.sin, np.cos]]: for every
    array [x] and all coefficients, [linear_combination(x, funcs,
    np.array([p1, p2, p3]))] returns [func(x, p1, p2, p3)]. *)
Theorem linear_combination_funcs (F : realFieldType) (np_sin np_cos : F -> F)
    (x : array1 F) (p1 p2 p3 : F) :
  linear_combination x (funcs np_sin np_cos) (array3 p1 p2 p3)
  = Ok (Vector (func np_sin np_cos x p1 p2 p3)).
Proof.
rewrite linear_combination_agrees //.
have [] := @design_matrix_ok F (funcs np_sin np_cos) x (len x)
             (@ones_like F) isT.
  by rewrite /= !eqxx.
move=> M [-> Mij]; rewrite [bind _ _]/= matmul21E /=.
congr (Ok (Vector (Array1 _))); apply/matrixP => i j; rewrite ord1 !mxE.
rewrite !big_ord_recl big_ord0 !Mij !mxE /= addr0.
rewrite (@item_ord _ (ones_like x)) (@item_ord _ (ufunc np_sin x)).
by rewrite (@item_ord _ (ufunc np_cos x)) /= !mxE mul1r addrA ![_ * p2]mulrC ![_ * p3]mulrC.
Qed.

End LinearFitProperties.

(** * Results on the weights of the example *)

Section WeightsProperties.

Local Open Scope ring_scope.


End WeightsProperties.

(** * Lemmas on the correlation matrix *)

Section CorrelationTheory.

Local Open Scope ring_scope.

Variable K : rcfType.

Lemma entry_ord n p (A : 'M[K]_(n, p)) (i : 'I_n) (j : 'I_p) :
  entry (Array2 A) i j = A i j.
Proof.
rewrite /entry; case: insubP => [i' _ ii|]; last by rewrite ltn_ord.
case: insubP => [j' _ jj|]; last by rewrite ltn_ord.
by congr (A _ _); apply: val_inj.
Qed.

Lemma matmul64E n p q (A : 'M[float64 K]_(n, p))
    (B : 'M[float64 K]_(p, q)) :
  matmul64 (Array2_64 A) (Array2_64 B)
  = Ok (Array2_64 (\matrix_(i, j)
                     dot64 (fun k => A i k) (fun k => B k j))).
Proof.
rewrite /matmul64 /=; case: eqP => // e.
by rewrite (eq_axiomK e) castmx_id.
Qed.

Lemma eq_dot64 n (a a' b b' : 'I_n -> float64 K) :
  a =1 a' -> b =1 b' -> dot64 a b = dot64 a' b'.
Proof.
by move=> ea eb; rewrite /dot64; congr foldl; apply: eq_map => k; rewrite ea eb.
Qed.

(** Sums of finite values are the sums of the field. *)
Lemma foldl_add64_finite (T : Type) (f : T -> K) (s : seq T) (z : K) :
  foldl (@add64 K) (Finite z) [seq Finite (f k) | k <- s]
  = Finite (z + \sum_(k <- s) f k).
Proof.
elim: s z => [|k s IH] z /=; first by rewrite big_nil addr0.
by rewrite IH big_cons addrA.
Qed.

Lemma dot64_finite n (a b : 'I_n -> K) :
  dot64 (fun k => Finite (a k)) (fun k => Finite (b k))
  = Finite (\sum_k a k * b k).
Proof.
rewrite /dot64 (foldl_add64_finite (fun k => a k * b k)) add0r.
by rewrite big_enum.
Qed.

(** A [nan] among the terms makes the sum [nan]. *)
Lemma foldl_add64_NaN (s : seq (float64 K)) (z : float64 K) :
  is_nan z || has is_nan s -> foldl (@add64 K) z s = NaN.
Proof.
elim: s z => [|a s IH] z /=; first by rewrite orbF; case: z.
move=> nan; apply: IH; move: nan.
by case: z => [u|||]; case: a => [v|||] //=.
Qed.

Lemma dot64_NaN n (a b : 'I_n -> float64 K) (k : 'I_n) :
  mul64 (a k) (b k) = NaN -> dot64 a b = NaN.
Proof.
move=> nan; apply: foldl_add64_NaN; rewrite has_map /=.
by apply/hasP; exists k; rewrite ?mem_enum //= nan.
Qed.

(** The scaling factor [1 / np.sqrt(t)]. *)
Lemma recip_sqrt_pos (t : K) :
  0 < t -> recip64 (sqrt64 t) = Finite (Num.sqrt t)^-1.
Proof.
move=> t0; rewrite /sqrt64 ltNge (ltW t0) /= sqrtr_eq0 leNgt t0.
by [].
Qed.

Lemma recip_sqrt_le0 (t : K) :
  t <= 0 ->
  recip64 (sqrt64 t) = if t == 0 then PosInf else NaN.
Proof.
rewrite le_eqVlt => /orP[/eqP ->|t0].
  by rewrite /sqrt64 ltxx sqrtr0 /= !eqxx.
by rewrite /sqrt64 t0 lt_eqF.
Qed.

(** The two products on a square matrix. *)
Lemma cov_to_corrE n (C : 'M[K]_n) :
  cov_to_corr (Array2 C)
  = Ok (Array2_64
          (\matrix_(i, j)
             dot64
               (fun k =>
                  dot64 (fun l => if i == l
                                  then recip64 (sqrt64 (C i i))
                                  else Finite 0)
                        (fun l => Finite (C l k)))
               (fun k => if k == j
                         then recip64 (sqrt64 (C k k))
                         else Finite 0))).
Proof.
rewrite /cov_to_corr /diagonal /diag64 /float_array /=.
move: (minn n n) (minnn n) => m em; subst m.
rewrite matmul64E /= matmul64E; congr (Ok (Array2_64 _)).
apply/matrixP => i j; rewrite !mxE; apply: eq_dot64 => k.
  rewrite !mxE; apply: eq_dot64 => l; rewrite !mxE //.
  by rewrite entry_ord.
by rewrite !mxE entry_ord.
Qed.

Lemma cov_to_corr_nonsquare (cov : array2 K) :
  nrows cov != ncols cov -> cov_to_corr cov = Raise ValueError.
Proof.
case: cov => n p C /= np; rewrite /cov_to_corr /matmul64 /=.
case: eqP => //= e1; case: eqP => //= e2.
by rewrite e2 e1 eqxx in np.
Qed.

Lemma is_ok_cov_to_corr (cov : array2 K) :
  is_ok (cov_to_corr cov) = (nrows cov == ncols cov).
Proof.
case: (boolP (nrows cov == ncols cov)) => [/eqP e|ne]; last first.
  by rewrite cov_to_corr_nonsquare.
by case: cov e => n p C /= e; subst p; rewrite cov_to_corrE.
Qed.

(** A positive diagonal: all entries are finite. *)
Lemma cov_to_corr_pos n (C : 'M[K]_n) :
  (forall i, 0 < C i i) ->
  cov_to_corr (Array2 C)
  = Ok (float_array
          (Array2 (\matrix_(i, j)
             ((Num.sqrt (C i i))^-1 * C i j * (Num.sqrt (C j j))^-1)))).
Proof.
move=> pos; rewrite cov_to_corrE /float_array /=; congr (Ok (Array2_64 _)).
apply/matrixP => i j; rewrite !mxE.
have inner k :
    dot64 (fun l => if i == l then recip64 (sqrt64 (C i i)) else Finite 0)
          (fun l => Finite (C l k))
    = Finite ((Num.sqrt (C i i))^-1 * C i k).
  rewrite (@eq_dot64 _ _
             (fun l => Finite (if i == l then (Num.sqrt (C i i))^-1 else 0))
             _ (fun l => Finite (C l k))) //.
    by move=> l; rewrite recip_sqrt_pos //; case: ifP.
  rewrite dot64_finite (bigD1 i) //= eqxx big1 ?addr0 // => l.
  by rewrite eq_sym => /negPf ->; rewrite mul0r.
rewrite (@eq_dot64 _ _
           (fun k => Finite ((Num.sqrt (C i i))^-1 * C i k))
           _ (fun k => Finite (if k == j then (Num.sqrt (C k k))^-1 else 0)))
  //.
  by move=> k; rewrite recip_sqrt_pos //; case: ifP.
rewrite dot64_finite (bigD1 j) //= eqxx big1 ?addr0 // => k /negPf ->.
by rewrite mulr0.
Qed.

(** A diagonal entry that is not positive: [nan] on the diagonal of the
    result. *)
Lemma cov_to_corr_diag_NaN n (C : 'M[K]_n) (i : 'I_n) :
  C i i <= 0 ->
  exists M : 'M[float64 K]_n,
    cov_to_corr (Array2 C) = Ok (Array2_64 M) /\ M i i = NaN.
Proof.
move=> le0; rewrite cov_to_corrE; eexists; split; first by [].
rewrite mxE; apply: (@dot64_NaN _ _ _ i).
rewrite (@dot64_NaN _ _ _ i) // eqxx recip_sqrt_le0 //.
by case: eqP => // ->; rewrite /= ltxx.
Qed.

Lemma quadratic_form_delta n (C : 'M[K]_n) (i j : 'I_n) :
  ((delta_mx i 0 : 'cV[K]_n)^T *m C *m (delta_mx j 0 : 'cV[K]_n)) 0 0 = C i j.
Proof. by rewrite trmx_delta -rowE -colE !mxE. Qed.

Lemma quadratic_form_comb n (C : 'M[K]_n) (u w : 'cV[K]_n) (a b : K) :
  ((a *: u - b *: w)^T *m C *m (a *: u - b *: w)) 0 0
  = a * a * (u^T *m C *m u) 0 0 - a * b * (u^T *m C *m w) 0 0
    - b * a * (w^T *m C *m u) 0 0 + b * b * (w^T *m C *m w) 0 0.
Proof.
rewrite [(_ - _)^T]linearB /= [(a *: u)^T]linearZ /= [(b *: w)^T]linearZ /=.
rewrite !mulmxBl !mulmxBr -!scalemxAl -!scalemxAr !scalerA.
move: (u^T *m C *m u) (u^T *m C *m w) (w^T *m C *m u) (w^T *m C *m w).
by move=> M1 M2 M3 M4; rewrite !mxE; ring.
Qed.

Lemma pd_diag_gt0 n (C : 'M[K]_n) (i : 'I_n) :
  positive_definite C -> 0 < C i i.
Proof.
move/(_ (delta_mx i 0)); rewrite quadratic_form_delta; apply.
by apply/eqP => /matrixP /(_ i 0) /eqP; rewrite !mxE !eqxx oner_eq0.
Qed.

(** The Cauchy-Schwarz inequality of a positive-definite matrix. *)
Lemma pd_cauchy_schwarz n (C : 'M[K]_n) (i j : 'I_n) :
  symmetric C -> positive_definite C -> C i j ^+ 2 <= C i i * C j j.
Proof.
move=> sC pdC.
have := positive_definite_ge0 (C j j *: delta_mx i 0 - C i j *: delta_mx j 0)
          pdC.
rewrite quadratic_form_comb !quadratic_form_delta.
have -> : C j i = C i j by rewrite -[in LHS](sC : C^T = C) mxE.
have := pd_diag_gt0 j pdC; move: (C i i) (C j j) (C i j) => a b c b0 h.
rewrite -subr_ge0 -(pmulr_rge0 _ b0); apply: le_trans h _.
by rewrite le_eqVlt; apply/orP; left; apply/eqP; ring.
Qed.

Lemma corr_entry_le1 (a b c : K) :
  0 < a -> 0 < b -> c ^+ 2 <= a * b ->
  `|(Num.sqrt a)^-1 * c * (Num.sqrt b)^-1| <= 1.
Proof.
move=> a0 b0 cab.
have sa : 0 < Num.sqrt a by rewrite sqrtr_gt0.
have sb : 0 < Num.sqrt b by rewrite sqrtr_gt0.
have q0 : 0 < Num.sqrt a * Num.sqrt b by rewrite mulr_gt0.
have cq : `|c| <= Num.sqrt a * Num.sqrt b.
  rewrite -(@ler_pXn2r _ 2) ?nnegrE ?normr_ge0 ?(ltW q0) //.
  by rewrite real_normK ?num_real // exprMn !sqr_sqrtr ?(ltW a0) ?(ltW b0).
rewrite mulrAC -invfM normrM normfV (gtr0_norm q0) mulrC.
by rewrite ler_pdivrMr // mul1r.
Qed.

Lemma cov_to_corr_spd n (C : 'M[K]_n) :
  symmetric C -> positive_definite C ->
  let R : 'M[K]_n :=
    \matrix_(i, j) ((Num.sqrt (C i i))^-1 * C i j * (Num.sqrt (C j j))^-1) in
  [/\ cov_to_corr (Array2 C) = Ok (float_array (Array2 R)),
      forall i, R i i = 1, symmetric R & forall i j, `|R i j| <= 1].
Proof.
move=> sC pdC R.
have d0 i : 0 < C i i by exact: pd_diag_gt0.
split.
- exact: cov_to_corr_pos.
- move=> i; rewrite mxE mulrAC -invfM -expr2 sqr_sqrtr ?ltW //.
  by rewrite mulVf // gt_eqF.
- apply/matrixP => i j; rewrite !mxE.
  have -> : C j i = C i j by rewrite -[in LHS](sC : C^T = C) mxE.
  by rewrite -[LHS]mulrA [LHS]mulrC [C i j * _]mulrC.
- by move=> i j; rewrite mxE corr_entry_le1 // pd_cauchy_schwarz.
Qed.


Lemma cov_to_corr_idem n (C : 'M[K]_n) :
  (forall i, 0 < C i i) ->
  let R : 'M[K]_n :=
    \matrix_(i, j) ((Num.sqrt (C i i))^-1 * C i j * (Num.sqrt (C j j))^-1) in
  cov_to_corr (Array2 C) = Ok (float_array (Array2 R))
  /\ cov_to_corr (Array2 R) = Ok (float_array (Array2 R)).
Proof.
move=> d0 R.
have R1 i : R i i = 1.
  rewrite mxE mulrAC -invfM -expr2 sqr_sqrtr ?ltW //.
  by rewrite mulVf // gt_eqF.
split; first exact: cov_to_corr_pos.
have R0 i : 0 < R i i by rewrite R1.
rewrite (cov_to_corr_pos R0).
congr (Ok (float_array (Array2 _))); apply/matrixP => i j.
by rewrite mxE !R1 sqrtr1 invr1 mul1r mulr1.
Qed.

End CorrelationTheory.

(** * Results on the correlation matrix *)

Section CorrelationProperties.

Local Open Scope ring_scope.

(** X10. In exact arithmetic, for a symmetric positive-definite
    covariance matrix [cov_to_corr] returns the finite matrix of entries
    [cov[i, j] / sqrt(cov[i, i] cov[j, j])]: it has a unit diagonal, is
    symmetric, and every entry lies in [-1, 1]. (A floating-point run
    agrees up to rounding.) *)
Theorem cov_to_corr_of_spd (K : rcfType) (n : nat) (C : 'M[K]_n) :
  symmetric C -> positive_definite C ->
  exists R : 'M[K]_n,
    cov_to_corr (Array2 C) = Ok (float_array (Array2 R))
    /\ (forall i j,
          R i j = (Num.sqrt (C i i))^-1 * C i j * (Num.sqrt (C j j))^-1)
    /\ (forall i, R i i = 1)
    /\ symmetric R
    /\ (forall i j, `|R i j| <= 1).
Proof.
move=> sC pdC; have [eq d1 sR le1] := cov_to_corr_spd sC pdC.
eexists; split; first exact: eq.
by split; first by move=> i j; rewrite mxE.
Qed.

(** The identity matrix on the real algebraic numbers. *)
Lemma cov_to_corr_of_spd_witness :
  symmetric (1%:M : 'M[algR]_2) /\ positive_definite (1%:M : 'M[algR]_2)
  /\ exists R : 'M[algR]_2,
       cov_to_corr (Array2 (1%:M : 'M[algR]_2)) = Ok (float_array (Array2 R))
       /\ (forall i j,
             R i j = (Num.sqrt ((1%:M : 'M[algR]_2) i i))^-1
                     * (1%:M : 'M[algR]_2) i j
                     * (Num.sqrt ((1%:M : 'M[algR]_2) j j))^-1)
       /\ (forall i, R i i = 1)
       /\ symmetric R
       /\ (forall i j, `|R i j| <= 1).
Proof.
have sC := @symmetric1 algR 2.
have pdC := @positive_definite1 algR 2.
split; first exact: sC.
split; first exact: pdC.
exact: (cov_to_corr_of_spd sC pdC).
Defined.

(** X11. [cov_to_corr] raises (a [ValueError] of the matrix products)
    exactly when its argument is not square. On a square matrix a
    diagonal entry that is zero or negative puts [nan] on the diagonal
    of the result ([1 / np.sqrt] gives [inf] or [nan], and [inf * 0] is
    [nan]), without an exception; with a positive diagonal all entries
    of the result are finite (finite values do not overflow here). *)
Theorem cov_to_corr_outcomes (K : rcfType) :
  (forall cov : array2 K,
     is_ok (cov_to_corr cov) = (nrows cov == ncols cov))
  /\ (forall cov : array2 K,
        nrows cov != ncols cov -> cov_to_corr cov = Raise ValueError)
  /\ (forall (n : nat) (C : 'M[K]_n) (i : 'I_n),
        C i i <= 0 ->
        exists M : 'M[float64 K]_n,
          cov_to_corr (Array2 C) = Ok (Array2_64 M) /\ M i i = NaN)
  /\ (forall (n : nat) (C : 'M[K]_n),
        (forall i, 0 < C i i) ->
        exists M : 'M[float64 K]_n,
          cov_to_corr (Array2 C) = Ok (Array2_64 M)
          /\ forall i j, is_finite (M i j)).
Proof.
split; first exact: is_ok_cov_to_corr.
split; first exact: cov_to_corr_nonsquare.
split; first by move=> n C i; exact: cov_to_corr_diag_NaN.
move=> n C pos; rewrite (cov_to_corr_pos pos) /float_array /=.
by eexists; split; first by []; move=> i j; rewrite mxE.
Qed.



(** X13. In exact arithmetic [cov_to_corr] is idempotent on matrices
    with a positive diagonal: its result is finite, and applied to that
    result it returns it again. (A floating-point run agrees up to
    rounding.) *)
Theorem cov_to_corr_idempotent (K : rcfType) (n : nat) (C : 'M[K]_n) :
  (forall i, 0 < C i i) ->
  exists R : 'M[K]_n,
    cov_to_corr (Array2 C) = Ok (float_array (Array2 R))
    /\ cov_to_corr (Array2 R) = Ok (float_array (Array2 R)).
Proof. by move/cov_to_corr_idem => /= idem; eexists; exact: idem. Qed.

Lemma cov_to_corr_idempotent_witness :
  (forall i, 0 < (2%:M : 'M[algR]_2) i i)
  /\ exists R : 'M[algR]_2,
       cov_to_corr (Array2 (2%:M : 'M[algR]_2)) = Ok (float_array (Array2 R))
       /\ cov_to_corr (Array2 R) = Ok (float_array (Array2 R)).
Proof.
have d0 : forall i, 0 < (2%:M : 'M[algR]_2) i i.
  by move=> i; rewrite mxE eqxx mulr1n ltr0n.
split; first exact: d0.
exact: (cov_to_corr_idempotent d0).
Defined.



End CorrelationProperties.


(** * Lemmas on the densities, the histogram and the diffraction pattern *)

Section MoreDensityTheory.

Local Open Scope R_scope.

Lemma in_rangeP (m : R) : in_range m <-> E_MIN <= m <= E_MAX.
Proof.
rewrite /in_range; case: (Rle_dec E_MIN m) => [lo|nlo] /=; last first.
  by split=> // -[].
by case: (Rle_dec m E_MAX) => [hi|nhi] /=; split=> // -[].
Qed.

Lemma In_range_cut (measured : seq R) (u : R) :
  List.In u (range_cut measured) <-> List.In u measured /\ in_range u.
Proof.
rewrite /range_cut; elim: measured => [|m ms IH] /=; first by split=> // -[].
case: ifP => inm /=; rewrite IH; split.
- by case=> [<-|[inu ru]]; split=> //; [left | right].
- by case=> -[<-|inu] ru; [left | right].
- by case=> inu ru; split=> //; right.
- by case=> -[eq|inu] ru; split=> //; rewrite -eq inm in ru.
Qed.

Lemma expon_pdf_pos (u tau : R) : 0 <= u -> 0 < tau -> 0 < expon_pdf u tau.
Proof.
move=> u0 tau0; rewrite /expon_pdf.
case: (Rle_dec 0 (u / tau)) => [le0|nle0] /=.
  by apply: Rdiv_lt_0_compat => //; exact: exp_pos.
by case: nle0; apply: Rmult_le_pos => //; apply/Rlt_le/Rinv_0_lt_compat.
Qed.

Lemma pdf_pos (u mean std tau p : R) :
  0 < std -> 0 < tau -> 0 <= p <= 1 -> 0 <= u -> 0 < pdf u mean std tau p.
Proof.
move=> std0 tau0 [p0 p1] u0; rewrite /pdf.
have n0 := norm_pdf_pos u mean std0.
have e0 := expon_pdf_pos u0 tau0.
have en := Rinv_0_lt_compat _ (expon_norm_pos tau0).
have b0 : 0 < / expon_norm tau * expon_pdf u tau by exact: Rmult_lt_0_compat.
rewrite /Rdiv Rmult_assoc.
case: p0 => [p0|<-]; last by real_lra.
apply: Rplus_lt_le_0_compat; first exact: Rmult_lt_0_compat.
by apply: Rmult_le_pos; [real_lra | exact: Rlt_le].
Qed.

(** *** The floor bounds the contribution of each event *)


(** *** The histogram edges *)

Lemma size_edges (n : nat) : (5 <= n)%N -> size (edges n) = (n - 5).+1.
Proof. by move=> le5; rewrite edgesE // size_map size_iota. Qed.

Lemma nth_edges (n i : nat) :
  (5 <= n)%N -> (i <= n - 5)%N -> nth 0 (edges n) i = INR (5 + i) / 21.48.
Proof.
move=> le5 lei; rewrite edgesE // (nth_map 0%N) ?size_iota ?ltnS //.
by rewrite nth_iota ?ltnS.
Qed.

Lemma edges_lt (n i j : nat) :
  (5 <= n)%N -> (i < j)%N -> (j <= n - 5)%N ->
  nth 0 (edges n) i < nth 0 (edges n) j.
Proof.
move=> le5 ij jn; rewrite !nth_edges ?(leq_trans (ltnW ij) jn) //.
have lt : INR (5 + i) < INR (5 + j).
  by apply/lt_INR/ssrnat.ltP; rewrite ltn_add2l.
by rewrite /Rdiv; apply: Rmult_lt_compat_r => //; real_lra.
Qed.

(** *** Monotonicity of the binned model *)





(** *** The diffraction pattern *)

Lemma sin_sqr_le (t : R) : sin t ^ 2 <= t ^ 2.
Proof.
have pos s : 0 < s -> sin s ^ 2 <= s ^ 2.
  move=> s0; have lt := sin_lt_x _ s0; have [lo hi] := SIN_bound s.
  case: (Rle_dec 1 s) => [s1|/Rnot_le_lt s1]; first by real_nra.
  by have := @sin_pos_tech s; move=> /(_ ltac:(real_lra)) sp; real_nra.
case: (Rtotal_order t 0) => [lt|[->|gt]]; last exact: pos.
  have := pos (- t); rewrite sin_neg => /(_ ltac:(real_lra)) h.
  by move: h; move: (sin t) => w h; real_nra.
by rewrite sin_0; real_lra.
Qed.

Lemma np_sinc_sqr_le1 (u : R) : np_sinc u ^ 2 <= 1.
Proof.
rewrite /np_sinc; case: (Req_dec_T u 0) => [e|u0]; rewrite [X in X ^ 2]/=.
  by real_lra.
have t0 : PI * u <> 0 by apply: Rmult_integral_contrapositive; split=> //; exact: PI_neq0.
have := sin_sqr_le (PI * u); move: t0; move: (PI * u) (sin _) => t w t0 le.
have t2 : 0 < t ^ 2 by real_nra.
have -> : (w / t) ^ 2 = w ^ 2 / t ^ 2 by real_field.
apply: (Rmult_le_reg_r (t ^ 2)) => //.
by rewrite /Rdiv Rmult_assoc Rinv_l; real_lra.
Qed.

Lemma np_sinc_even (u : R) : np_sinc (- u) = np_sinc u.
Proof.
rewrite /np_sinc; case: (Req_dec_T u 0) => [e|u0] /=.
  by case: (Req_dec_T (- u) 0) => [//|[]]; real_lra.
case: (Req_dec_T (- u) 0) => [e|_] /=; first by case: u0; real_lra.
have t0 : PI * u <> 0 by apply: Rmult_integral_contrapositive; split=> //; exact: PI_neq0.
have -> : PI * - u = - (PI * u) by real_ring.
by rewrite sin_neg; move: t0; move: (PI * u) => t t0; real_field.
Qed.

Lemma np_sinc_int (k : Z) : k <> Z0 -> np_sinc (IZR k) = 0.
Proof.
move=> k0; rewrite /np_sinc; case: (Req_dec_T (IZR k) 0) => [e|_] /=.
  by case: k0; apply: eq_IZR.
have -> : sin (PI * IZR k) = 0 by apply: sin_eq_0_1; exists k; real_ring.
by rewrite /Rdiv Rmult_0_l.
Qed.

End MoreDensityTheory.

(** * Results on the likelihood fits and the diffraction pattern *)

Section MoreDensityProperties.

Local Open Scope R_scope.

(** X15. The cut [measured[in_range]] keeps events of [measured] inside
    the detector range [[E_MIN, E_MAX]] only. On every event it keeps,
    and for parameters inside the bounds of the fit ([std > 0],
    [tau > 0], [0 <= p <= 1]), the density [pdf] is strictly positive in
    exact arithmetic, which is what the exact evaluation of the code
    returns there. (In floating point the same value can underflow.) *)
Theorem range_cut_density_pos (measured : seq R) (mean std tau p : R) :
  0 < std -> 0 < tau -> 0 <= p <= 1 ->
  forall u, List.In u (range_cut measured) ->
    List.In u measured /\ E_MIN <= u <= E_MAX
    /\ 0 < pdf u mean std tau p
    /\ pdf64 exact u mean std tau p = Finite (pdf u mean std tau p).
Proof.
move=> std0 tau0 p01 u /In_range_cut [inu /in_rangeP ru].
have u0 : 0 <= u by move: ru; rewrite /E_MIN; real_lra.
have pos := pdf_pos mean std0 tau0 p01 u0.
by split=> //; split=> //; split=> //; exact: pdf64_exact.
Qed.

Lemma range_cut_density_pos_witness :
  0 < 1 /\ 0 < 1 /\ 0 <= 1 / 2 <= 1
  /\ forall u, List.In u (range_cut [:: 100; 200]) ->
       List.In u [:: 100; 200] /\ E_MIN <= u <= E_MAX
       /\ 0 < pdf u 126 1 1 (1 / 2)
       /\ pdf64 exact u 126 1 1 (1 / 2) = Finite (pdf u 126 1 1 (1 / 2)).
Proof.
have h1 : 0 < 1 by real_lra.
have hp : 0 <= 1 / 2 <= 1 by real_lra.
split; first exact: h1.
split; first exact: h1.
split; first exact: hp.
exact: (@range_cut_density_pos [:: 100; 200] 126 1 1 (1 / 2) h1 h1 hp).
Defined.



(** X17. The histogram of the muon data: with at least five channels,
    after [t = t[5:]] and [N = N[5:]] there is exactly one edge more
    than there are counts, the edge of index [i] is [(5 + i) / 21.48],
    the edges increase strictly, and [T_MIN] and [T_MAX] are the first
    and the last of them. *)
Theorem edges_bins (counts : seq R) :
  (5 <= size counts)%N ->
  size (edges (size counts)) = (size (drop 5 counts)).+1
  /\ (forall i, (i < size (edges (size counts)))%N ->
        nth 0 (edges (size counts)) i = INR (5 + i) / 21.48)
  /\ (forall i j, (i < j < size (edges (size counts)))%N ->
        nth 0 (edges (size counts)) i < nth 0 (edges (size counts)) j)
  /\ T_MIN (size counts) = nth 0 (edges (size counts)) 0
  /\ T_MAX (size counts)
     = nth 0 (edges (size counts)) (size (drop 5 counts)).
Proof.
move=> le5; rewrite size_drop size_edges //.
split=> //; split; first by move=> i; rewrite ltnS; exact: nth_edges.
split; first by move=> i j /andP[ij]; rewrite ltnS; exact: edges_lt.
split; first by rewrite /T_MIN -nth0.
by rewrite /T_MAX -nth_last size_edges.
Qed.

Lemma edges_bins_witness :
  (5 <= size [:: 1; 2; 3; 4; 5; 6; 7])%N
  /\ size (edges 7) = (size (drop 5 [:: 1; 2; 3; 4; 5; 6; 7])).+1
  /\ (forall i, (i < size (edges 7))%N ->
        nth 0 (edges 7) i = INR (5 + i) / 21.48)
  /\ (forall i j, (i < j < size (edges 7))%N ->
        nth 0 (edges 7) i < nth 0 (edges 7) j)
  /\ T_MIN 7 = nth 0 (edges 7) 0
  /\ T_MAX 7 = nth 0 (edges 7) (size (drop 5 [:: 1; 2; 3; 4; 5; 6; 7])).
Proof.
split; first by [].
exact: (@edges_bins [:: 1; 2; 3; 4; 5; 6; 7] isT).
Defined.



(** X19. The single-slit intensity [theory(phi, A0, b)] is an even
    function of the angle, takes the value [(A0 b)^2] in the centre
    [phi = 0], and stays between 0 and that value everywhere. *)
Theorem theory_envelope (A0 b : R) :
  theory 0 A0 b = (A0 * b) ^ 2
  /\ (forall phi, 0 <= theory phi A0 b <= (A0 * b) ^ 2)
  /\ (forall phi, theory (- phi) A0 b = theory phi A0 b).
Proof.
split.
  rewrite /theory sin_0 /Rdiv Rmult_0_r Rmult_0_l /np_sinc.
  by case: (Req_dec_T 0 0) => [_|[]] //=; real_ring.
split=> phi; rewrite /theory.
  have := np_sinc_sqr_le1 (b * sin phi / LASER_WAVELENGTH_NM).
  move: (np_sinc _) (A0 * b) => s c s1; rewrite Rpow_mult_distr.
  by split; real_nra.
rewrite sin_neg; congr ((_ * _) ^ 2).
rewrite -[in RHS]np_sinc_even; congr np_sinc.
by rewrite /Rdiv; real_ring.
Qed.

(** X20. The minima of the diffraction pattern: where
    [b sin(phi) / LASER_WAVELENGTH_NM] is a non-zero integer the
    intensity [theory(phi, A0, b)] is zero. *)
Theorem theory_minima (phi A0 b : R) (k : Z) :
  k <> Z0 -> b * sin phi / LASER_WAVELENGTH_NM = IZR k ->
  theory phi A0 b = 0.
Proof.
by move=> k0 e; rewrite /theory e np_sinc_int //; real_ring.
Qed.

Lemma theory_minima_witness :
  Zpos xH <> Z0
  /\ LASER_WAVELENGTH_NM * sin (PI / 2) / LASER_WAVELENGTH_NM = IZR (Zpos xH)
  /\ theory (PI / 2) 1 LASER_WAVELENGTH_NM = 0.
Proof.
have k0 : Zpos xH <> Z0 by [].
have e : LASER_WAVELENGTH_NM * sin (PI / 2) / LASER_WAVELENGTH_NM
         = IZR (Zpos xH).
  by rewrite sin_PI2 /LASER_WAVELENGTH_NM; real_field; real_lra.
split; first exact: k0.
split; first exact: e.
exact: (@theory_minima (PI / 2) 1 LASER_WAVELENGTH_NM (Zpos xH) k0 e).
Defined.

End MoreDensityProperties.
